(** * cloud-report: script generation (cmd/generate.go) and the TPC-C
    escalation script (scripts/gen/tpcc.sh)

    A shallow embedding of the generator's argument handling, of the
    control flow of the driver script it renders, and of the TPC-C ramp
    script, followed by the properties proved about them.

    Conventions.
    - A Go [map[string]string] is a reference: [mapref] is [None] for the
      nil map and [Some l] for the map object stored at address [l] of a
      [heap].  Writes go through the heap, so aliasing is visible.
    - Go leaves the iteration order of [range] over a map unspecified.
      Every loop over a map is therefore written over the list of entries
      it visits, and the properties are proved for every list that is a
      permutation of the map's entries.
    - Shell scripts run under [set -e]: a command that exits non-zero ends
      the script.  Outcomes of external commands, signals and the output
      of external tools outside the part that is spelled out come from an
      oracle, the world. *)

From Stdlib Require Import ZArith NArith Ascii DecimalString Permutation.
From stdpp Require Import gmap strings list fin_maps.

Local Open Scope Z_scope.

(* ===================================================================== *)
(** * Part I: cmd/generate.go                                             *)
(* ===================================================================== *)

Module Generate.

(** ** Maps as heap objects *)

Abbreviation loc := positive (only parsing).
Abbreviation mapref := (option positive) (only parsing).
Abbreviation heap := (gmap positive (gmap string string)) (only parsing).

(** Reading through a reference; a nil map reads as the empty map. *)
Definition deref (h : heap) (r : mapref) : gmap string string :=
  match r with
  | None => ∅
  | Some l => default ∅ (h !! l)
  end.

(** [m[k] = v] on the map object at [l]. *)
Definition assign (l : loc) (k v : string) (h : heap) : heap :=
  <[l := <[k := v]> (deref h (Some l))]> h.

(** [_, found := m[k]] *)
Definition found (h : heap) (r : mapref) (k : string) : bool :=
  bool_decide (is_Some (deref h r !! k)).

(** [make(map[string]string)]: a new, empty map object. *)
Definition make_map (h : heap) : loc * heap :=
  let l := fresh (dom h) in (l, <[l := ∅]> h).

(** Go's [range] over a map visits each entry once, in some order. *)
Definition range_of (m : gmap string string) (order : list (string * string)) : Prop :=
  order ≡ₚ map_to_list m.

(** ** combineArgs *)

(** The body of [for arg, val := range baseArgs], over the visited
    entries; [l] is the (non-nil) [machineArgs]. *)
Fixpoint combineLoop (l : loc) (entries : list (string * string)) (h : heap) : heap :=
  match entries with
  | [] => h
  | (arg, val) :: rest =>
      combineLoop l rest
        (if found h (Some l) arg then h else assign l arg val h)
  end.

Definition combineArgs (order : list (string * string))
    (machineArgs baseArgs : mapref) (h : heap) : mapref * heap :=
  match machineArgs with
  | None => (baseArgs, h)
  | Some l => (Some l, combineLoop l order h)
  end.

(** ** Structs of the configuration *)

Module MachineConfig.
Record t := Build { RoachprodArgs : mapref; BenchArgs : mapref }.
End MachineConfig.

(** [CloudDetails] is declared in another file of the package; these are
  the fields generate.go reads. *)
Module CloudDetails.
Record t := Build {
  Cloud : string;
  Group : string;
  MachineTypes : gmap string MachineConfig.t;
  RoachprodArgs : mapref;
  BenchArgs : mapref
}.
End CloudDetails.

Module scriptData.
Record t := Build {
  CloudDetails : CloudDetails.t;
  Cluster : string;
  Lifetime : string;
  MachineType : string;
  ScriptsDir : string;
  EvaledArgs : string;
  BenchArgs : mapref
}.
Definition with_EvaledArgs (d : t) (s : string) : t :=
  Build (CloudDetails d) (Cluster d) (Lifetime d) (MachineType d)
        (ScriptsDir d) s (BenchArgs d).
End scriptData.

(** ** text/template, as far as generate.go uses it *)

Inductive result (A : Type) : Type :=
| Ok (a : A)
| Err (msg : string).
Arguments Ok {A} a.
Arguments Err {A} msg.

(** [Parse] and [Execute] of package text/template.  [Execute] reads the
    data it is given, including the map behind [BenchArgs]. *)
Record engine := Engine {
  template : Type;
  Parse : string → result template;
  Execute : template → heap → scriptData.t → result string
}.

(** How a Go call ends: with a nil error, a non-nil error, or a panic. *)
Inductive status : Type :=
| Nil
| Error (msg : string)
| Panic (msg : string).

(** ** evalArgs *)

(** [fmt.Errorf("error evaluating arg %s: %v", arg, err)] *)
Definition evalError (arg err : string) : string :=
  "error evaluating arg " +:+ arg +:+ ": " +:+ err.

(** The loop of [evalArgs] over the visited entries of [inputArgs].
    [template.Must] panics with the parse error; a write to a nil
    [evaledArgs] panics as well. *)
Fixpoint evalArgs (E : engine) (inputArgs : list (string * string))
    (templateArgs : scriptData.t) (evaledArgs : mapref) (h : heap) : heap * status :=
  match inputArgs with
  | [] => (h, Nil)
  | (arg, val) :: rest =>
      match Parse E val with
      | Err e => (h, Panic e)
      | Ok t =>
          match Execute E t h templateArgs with
          | Err e => (h, Error (evalError arg e))
          | Ok s =>
              match evaledArgs with
              | None => (h, Panic "assignment to entry in nil map")
              | Some l => evalArgs E rest templateArgs evaledArgs (assign l arg s h)
              end
          end
      end
  end.

(** ** FormatMachineType, hashStrings *)

Definition replaceChar (old new : ascii) (c : ascii) : ascii :=
  if Ascii.eqb c old then new else c.

Fixpoint mapString (f : ascii → ascii) (s : string) : string :=
  match s with
  | EmptyString => EmptyString
  | String c r => String (f c) (mapString f r)
  end.

(** [strings.Replace(m, ".", "-", -1)] *)
Definition FormatMachineType (m : string) : string :=
  mapString (replaceChar "." "-") m.

(** CRC-32 (IEEE), bit by bit: reflected polynomial 0xEDB88320. *)
Definition crcBit (c : Z) : Z :=
  if Z.testbit c 0 then Z.lxor (Z.shiftr c 1) 0xEDB88320 else Z.shiftr c 1.

Definition crcByte (c : Z) (b : ascii) : Z :=
  Nat.iter 8 crcBit (Z.lxor c (Z.of_N (Ascii.N_of_ascii b))).

Fixpoint crcUpdate (c : Z) (s : string) : Z :=
  match s with
  | EmptyString => c
  | String b r => crcUpdate (crcByte c b) r
  end.

(** [hasher.Write] for each value in turn, then [Sum32]. *)
Definition hashStrings (vals : list string) : Z :=
  Z.lxor (fold_left crcUpdate vals 0xFFFFFFFF) 0xFFFFFFFF.

(** ** The cluster name *)

(** [%d] of an integer. *)
Definition fmt_d (z : Z) : string := NilZero.string_of_int (Z.to_int z).

(** The regular expression [[\.|\_]] is a character class: it matches a
    dot, a vertical bar or an underscore. *)
Definition validClusterName (c : ascii) : bool :=
  Ascii.eqb c "." || Ascii.eqb c "|" || Ascii.eqb c "_".

(** [validClusterName.ReplaceAllString(s, "-")] *)
Definition ReplaceAllString (s : string) : string :=
  mapString (λ c, if validClusterName c then "-"%char else c) s.

(** [(1+time.Now().Year())%1000]: Go's [%] truncates. *)
Definition yearTag (year : Z) : Z := Z.rem (1 + year) 1000.

Definition clusterName (year : Z) (machineType : string)
    (cloud group reportVersion : string) : string :=
  ReplaceAllString
    ("cldrprt" +:+ fmt_d (yearTag year) +:+ "-" +:+ machineType +:+ "-"
       +:+ fmt_d (hashStrings [cloud; group; reportVersion])).

(** ** Rendering the evaluated arguments *)

Definition dquote : ascii := "034"%char.
Definition bslash : ascii := "092"%char.

Definition hexDigit (n : N) : ascii :=
  default "0"%char (String.get (N.to_nat n) "0123456789abcdef").

(** One byte of [strconv.Quote] below DEL, a rune of its own, handled as
    [appendEscapedRune] does: a backslash before the quote and the
    backslash, printable bytes copied, the named escapes, and a [\x]
    escape for the other control characters. *)
Definition quoteByte (c : ascii) : string :=
  let n := Ascii.N_of_ascii c in
  if Ascii.eqb c dquote || Ascii.eqb c bslash then String bslash (String c "")
  else if ((32 <=? n) && (n <? 127))%N then String c ""
  else if (n =? 7)%N then "\a"
  else if (n =? 8)%N then "\b"
  else if (n =? 12)%N then "\f"
  else if (n =? 10)%N then "\n"
  else if (n =? 13)%N then "\r"
  else if (n =? 9)%N then "\t"
  else if (n =? 11)%N then "\v"
  else "\x" +:+ String (hexDigit (n / 16)) (String (hexDigit (n mod 16)) "").

Fixpoint quoteBody (s : string) : string :=
  match s with
  | EmptyString => String dquote ""
  | String c r => quoteByte c +:+ quoteBody r
  end.

Fixpoint allChars (p : ascii → bool) (s : string) : bool :=
  match s with
  | EmptyString => true
  | String c r => p c && allChars p r
  end.

(** The bytes below DEL. *)
Definition asciiByte (c : ascii) : bool := (Ascii.N_of_ascii c <? 127)%N.

(** [%q] of a string: [strconv.Quote].  A string of bytes below DEL is
    quoted byte by byte.  In any other string Go decodes UTF-8, copies
    the runes that its tables call printable and escapes the others:
    [quoteRunes] is what the library returns for such a string. *)
Definition Quote (quoteRunes : string → string) (s : string) : string :=
  if allChars asciiByte s then String dquote (quoteBody s) else quoteRunes s.

(** The loop over [evaledArgs] that fills [buf]. *)
Fixpoint renderArgs (quoteRunes : string → string)
    (entries : list (string * string)) (buf : string) : string :=
  match entries with
  | [] => buf
  | (arg, val) :: rest =>
      let buf := if (0 <? String.length buf)%nat then buf +:+ " " else buf in
      let buf := buf +:+ "--" +:+ arg in
      let buf :=
        if (0 <? String.length val)%nat then buf +:+ "=" +:+ Quote quoteRunes val
        else buf in
      renderArgs quoteRunes rest buf
  end.

(** ** generateCloudScripts *)

(** What the generator takes from outside the function: package
    variables, the clock, the template engine, other functions of the
    package, the file system, the order in which each [range] visits a
    map, and the quoting of strings that are not plain ASCII. *)
Record env := Env {
  eng : engine;
  scriptTemplate : template eng;
  year : Z;
  reportVersion : string;
  lifetime : string;
  scriptsDir : string;
  makeAllDirs : CloudDetails.t → status;
  ScriptDir : CloudDetails.t → string;
  pathJoin : string → string → string;
  OpenFile : string → status;
  range : gmap string string → list (string * string);
  rangeMachines : gmap string MachineConfig.t → list (string * MachineConfig.t);
  quoteRunes : string → string
}.

Record state := State {
  maps : heap;
  files : list (string * string)
}.

(** The local variables of one iteration, kept for inspection. *)
Record locals := Locals {
  templateArgs : scriptData.t;
  evaledArgs : mapref;
  combinedArgs : mapref
}.

(** The body of the loop over [cloud.MachineTypes], for one entry.  A
    script whose rendering fails is recorded with empty contents; what
    had been written before the failure is not modelled. *)
Definition targetBody (V : env) (cloud : CloudDetails.t)
    (machineType : string) (machineConfig : MachineConfig.t)
    (st : state) : state * locals * status :=
  let h := maps st in
  let clusterName :=
    clusterName (year V) machineType
      (CloudDetails.Cloud cloud) (CloudDetails.Group cloud) (reportVersion V) in
  let '(benchArgs, h) :=
    combineArgs (range V (deref h (CloudDetails.BenchArgs cloud)))
      (MachineConfig.BenchArgs machineConfig) (CloudDetails.BenchArgs cloud) h in
  let templateArgs :=
    scriptData.Build cloud clusterName (lifetime V) machineType (scriptsDir V)
      "" benchArgs in
  let '(l, h) := make_map h in
  let evaledArgs := Some l in
  let '(combinedArgs, h) :=
    combineArgs (range V (deref h (CloudDetails.RoachprodArgs cloud)))
      (MachineConfig.RoachprodArgs machineConfig) (CloudDetails.RoachprodArgs cloud) h in
  let '(h, err) :=
    evalArgs (eng V) (range V (deref h combinedArgs)) templateArgs evaledArgs h in
  match err with
  | Nil =>
      let buf := renderArgs (quoteRunes V) (range V (deref h evaledArgs)) "" in
      let templateArgs := scriptData.with_EvaledArgs templateArgs buf in
      let scriptName :=
        pathJoin V (ScriptDir V cloud) (FormatMachineType machineType +:+ ".sh") in
      let vars := Locals templateArgs evaledArgs combinedArgs in
      match OpenFile V scriptName with
      | Nil =>
          match Execute (eng V) (scriptTemplate V) h templateArgs with
          | Ok text => (State h ((scriptName, text) :: files st), vars, Nil)
          | Err e => (State h ((scriptName, "") :: files st), vars, Error e)
          end
      | err => (State h (files st), vars, err)
      end
  | err => (State h (files st), Locals templateArgs evaledArgs combinedArgs, err)
  end.

(** The loop over the machine types, stopping at the first error. *)
Fixpoint targetLoop (V : env) (cloud : CloudDetails.t)
    (machines : list (string * MachineConfig.t)) (st : state) : state * status :=
  match machines with
  | [] => (st, Nil)
  | (machineType, machineConfig) :: rest =>
      match targetBody V cloud machineType machineConfig st with
      | (st, _, Nil) => targetLoop V cloud rest st
      | (st, _, err) => (st, err)
      end
  end.

Definition generateCloudScripts (V : env) (cloud : CloudDetails.t)
    (st : state) : state * status :=
  match makeAllDirs V cloud with
  | Nil => targetLoop V cloud (rangeMachines V (CloudDetails.MachineTypes cloud)) st
  | err => (st, err)
  end.

(** ** Vocabulary for the properties *)

Definition isLetter (c : ascii) : bool :=
  let n := Ascii.N_of_ascii c in
  (((65 <=? n) && (n <=? 90)) || ((97 <=? n) && (n <=? 122)))%N.

Definition isDigit (c : ascii) : bool :=
  let n := Ascii.N_of_ascii c in ((48 <=? n) && (n <=? 57))%N.

(** Letters, digits and the hyphen. *)
Definition allowedChar (c : ascii) : bool :=
  isLetter c || isDigit c || Ascii.eqb c "-".

(** The characters [%d] can print. *)
Definition isNumeral (c : ascii) : bool := isDigit c || Ascii.eqb c "-".

(** [sub] occurs in [msg]. *)
Definition contains (msg sub : string) : Prop :=
  ∃ pre post, msg = pre +:+ sub +:+ post.

(** What the rendered string holds for one argument: the bare flag for
    an empty value, the flag with the quoted value otherwise. *)
Definition emitted (quoteRunes : string → string) (kv : string * string) : string :=
  if decide (kv.2 = "") then "--" +:+ kv.1
  else "--" +:+ kv.1 +:+ "=" +:+ Quote quoteRunes kv.2.

(** A value that [%q] copies unchanged between the quotes: printable
    ASCII without the double quote and the backslash. *)
Definition plainChar (c : ascii) : bool :=
  let n := Ascii.N_of_ascii c in
  ((32 <=? n) && (n <? 127))%N && negb (Ascii.eqb c dquote) && negb (Ascii.eqb c bslash).

(** Printable ASCII. *)
Definition printable (c : ascii) : bool :=
  let n := Ascii.N_of_ascii c in ((32 <=? n) && (n <? 127))%N.

(** A value with a backslash before each double quote and backslash. *)
Fixpoint escaped (s : string) : string :=
  match s with
  | EmptyString => EmptyString
  | String c r =>
      if Ascii.eqb c dquote || Ascii.eqb c bslash then String bslash (String c (escaped r))
      else String c (escaped r)
  end.

(** The form the specification gives for an argument with a value. *)
Definition literal (kv : string * string) : string :=
  "--" +:+ kv.1 +:+ "=" +:+ String dquote (kv.2 +:+ String dquote "").

(** A small engine for examples.  [{{] does not parse, [{{.Nope}}]
    parses but names no field of the data, [{{.Cluster}}] renders the
    cluster name, and any other value is taken as plain text. *)
Inductive sampleTemplate := TText (s : string) | TCluster | TNope.

Definition sampleParse (val : string) : result sampleTemplate :=
  if String.eqb val "{{" then Err "template: arg:1: unclosed action"
  else if String.eqb val "{{.Cluster}}" then Ok TCluster
  else if String.eqb val "{{.Nope}}" then Ok TNope
  else Ok (TText val).

Definition sampleExecute (t : sampleTemplate) (h : heap) (d : scriptData.t) : result string :=
  match t with
  | TText s => Ok s
  | TCluster => Ok (scriptData.Cluster d)
  | TNope => Err "template: arg:1:2: executing arg: can't evaluate field Nope"
  end.

Definition sampleEngine : engine := Engine sampleTemplate sampleParse sampleExecute.

(** What [strconv.Quote] returns for a string in which every rune is
    printable and none is the quote or the backslash. *)
Definition sampleQuoteRunes (s : string) : string :=
  String dquote (s +:+ String dquote "").

(** An environment for examples: the year 2021, no failing file
    operation, every map visited in the order of [map_to_list]. *)
Definition sampleEnv : env :=
  Env sampleEngine (TText "#!/bin/bash") 2021 "v1" "24h" "./scripts"
    (λ _, Nil) (λ _, "report/gce/scripts") (λ d f, d +:+ "/" +:+ f) (λ _, Nil)
    map_to_list map_to_list sampleQuoteRunes.

(** A value with a double quote in it. *)
Definition quotedWord : string := "say " +:+ String dquote ("hi" +:+ String dquote "").

(** A heap with the two cloud-level maps at addresses 1 and 2 and the
    maps of one machine type at 3 and 4. *)
Definition sampleHeap : heap :=
  {[ 1%positive := {[ "gce-zones" := "us-central1-a"; "gce-image" := "{{.Cluster}}" ]};
     2%positive := {[ "io" := "-s"; "cpu" := "" ]};
     3%positive := {[ "gce-zones" := "us-east1-b"; "local-ssd" := "" ]};
     4%positive := {[ "io" := "-q" ]} ]}.

Definition sampleCloud : CloudDetails.t :=
  CloudDetails.Build "gce" "default"
    {[ "n2-standard-16" := MachineConfig.Build (Some 3%positive) (Some 4%positive);
       "n2_highmem.16" := MachineConfig.Build None None ]}
    (Some 1%positive) (Some 2%positive).


Definition sampleData : scriptData.t :=
  scriptData.Build sampleCloud "cldrprt22-n2-standard-16-1" "24h" "n2-standard-16"
    "./scripts" "" (Some 4%positive).

(** Deployment arguments with a value that does not parse, and with a
    value that parses but names a field the data does not have. *)
Definition unparsable : gmap string string := {[ "gce-zones" := "{{" ]}.

Definition unknownField : gmap string string :=
  {[ "gce-zones" := "us-east1-b"; "gce-image" := "{{.Nope}}" ]}.

Definition evaledSample : gmap string string :=
  {[ "gce-zones" := "us-east1-b"; "local-ssd" := "" ]}.

(** ** The command and the script files *)

(** The file the script of one machine type is written to. *)
Definition scriptName (V : env) (cloud : CloudDetails.t) (machineType : string) : string :=
  pathJoin V (ScriptDir V cloud) (FormatMachineType machineType +:+ ".sh").

(** [RunE] of [generateCmd]: the loop over the package variable
    [clouds], which stops at the first error. *)
Fixpoint RunE (V : env) (clouds : list CloudDetails.t) (st : state) : state * status :=
  match clouds with
  | [] => (st, Nil)
  | cloud :: rest =>
      match generateCloudScripts V cloud st with
      | (st, Nil) => RunE V rest st
      | (st, err) => (st, err)
      end
  end.

End Generate.

(* ===================================================================== *)
(** * Part II: the driver script rendered from [driverTemplate]           *)
(* ===================================================================== *)

Module Driver.

Inductive bench := bench_cpu | bench_io | bench_net | bench_tpcc.

(** One option as [getopts 'c:b:w:dn:I:N:C:T:r'] delivers it. *)
Inductive opt :=
| opt_b (arg : string)
| opt_c (arg : string)
| opt_w (arg : string)
| opt_d
| opt_r
| opt_n (arg : string)
| opt_I (arg : string)
| opt_N (arg : string)
| opt_C (arg : string)
| opt_T (arg : string)
| opt_unknown.

(** The shell variables set before and by the option loop.  The flag
    variables hold either the empty string or [true] and are only tested
    for emptiness; they are booleans here. *)
Record vars := Vars {
  benchmarks : list bench;
  f_resume : bool;
  do_create : bool;
  do_upload : bool;
  do_setup : bool;
  do_destroy : bool;
  NODES : string;
  cockroach_binary : string;
  io_extra_args : string;
  cpu_extra_args : string;
  net_extra_args : string;
  tpcc_extra_args : string
}.

(** The assignments before the option loop; the four extra-argument
    defaults are rendered from [.BenchArgs]. *)
Definition initial (io cpu net tpcc : string) : vars :=
  Vars [] false false false false false "4" "" io cpu net tpcc.

(** One round of the [case] on the option; [None] is a call of [usage],
    which exits. *)
Definition setopt (v : vars) (o : opt) : option vars :=
  match o with
  | opt_b arg =>
      if String.eqb arg "all" then
        Some (Vars (benchmarks v) (f_resume v) true true true (do_destroy v) (NODES v)
                (cockroach_binary v) (io_extra_args v) (cpu_extra_args v)
                (net_extra_args v) (tpcc_extra_args v))
      else if String.eqb arg "create" then
        Some (Vars (benchmarks v) (f_resume v) true (do_upload v) (do_setup v) (do_destroy v)
                (NODES v) (cockroach_binary v) (io_extra_args v) (cpu_extra_args v)
                (net_extra_args v) (tpcc_extra_args v))
      else if String.eqb arg "upload" then
        Some (Vars (benchmarks v) (f_resume v) (do_create v) true (do_setup v) (do_destroy v)
                (NODES v) (cockroach_binary v) (io_extra_args v) (cpu_extra_args v)
                (net_extra_args v) (tpcc_extra_args v))
      else if String.eqb arg "setup" then
        Some (Vars (benchmarks v) (f_resume v) (do_create v) (do_upload v) true (do_destroy v)
                (NODES v) (cockroach_binary v) (io_extra_args v) (cpu_extra_args v)
                (net_extra_args v) (tpcc_extra_args v))
      else None
  | opt_c arg =>
      Some (Vars (benchmarks v) (f_resume v) (do_create v) (do_upload v) (do_setup v)
              (do_destroy v) (NODES v) arg (io_extra_args v) (cpu_extra_args v)
              (net_extra_args v) (tpcc_extra_args v))
  | opt_w arg =>
      let add bs :=
        Some (Vars (benchmarks v ++ bs) (f_resume v) (do_create v) (do_upload v) (do_setup v)
                (do_destroy v) (NODES v) (cockroach_binary v) (io_extra_args v)
                (cpu_extra_args v) (net_extra_args v) (tpcc_extra_args v)) in
      if String.eqb arg "cpu" then add [bench_cpu]
      else if String.eqb arg "io" then add [bench_io]
      else if String.eqb arg "net" then add [bench_net]
      else if String.eqb arg "tpcc" then add [bench_tpcc]
      else if String.eqb arg "all" then add [bench_cpu; bench_io; bench_net; bench_tpcc]
      else None
  | opt_d =>
      Some (Vars (benchmarks v) (f_resume v) (do_create v) (do_upload v) (do_setup v) true
              (NODES v) (cockroach_binary v) (io_extra_args v) (cpu_extra_args v)
              (net_extra_args v) (tpcc_extra_args v))
  | opt_r =>
      Some (Vars (benchmarks v) true (do_create v) (do_upload v) (do_setup v) (do_destroy v)
              (NODES v) (cockroach_binary v) (io_extra_args v) (cpu_extra_args v)
              (net_extra_args v) (tpcc_extra_args v))
  | opt_n arg =>
      Some (Vars (benchmarks v) (f_resume v) (do_create v) (do_upload v) (do_setup v)
              (do_destroy v) arg (cockroach_binary v) (io_extra_args v) (cpu_extra_args v)
              (net_extra_args v) (tpcc_extra_args v))
  | opt_I arg =>
      Some (Vars (benchmarks v) (f_resume v) (do_create v) (do_upload v) (do_setup v)
              (do_destroy v) (NODES v) (cockroach_binary v) arg (cpu_extra_args v)
              (net_extra_args v) (tpcc_extra_args v))
  | opt_C arg =>
      Some (Vars (benchmarks v) (f_resume v) (do_create v) (do_upload v) (do_setup v)
              (do_destroy v) (NODES v) (cockroach_binary v) (io_extra_args v) arg
              (net_extra_args v) (tpcc_extra_args v))
  | opt_N arg =>
      Some (Vars (benchmarks v) (f_resume v) (do_create v) (do_upload v) (do_setup v)
              (do_destroy v) (NODES v) (cockroach_binary v) (io_extra_args v)
              (cpu_extra_args v) arg (tpcc_extra_args v))
  | opt_T arg =>
      Some (Vars (benchmarks v) (f_resume v) (do_create v) (do_upload v) (do_setup v)
              (do_destroy v) (NODES v) (cockroach_binary v) (io_extra_args v)
              (cpu_extra_args v) (net_extra_args v) arg)
  | opt_unknown => None
  end.

(** The [while getopts] loop. *)
Fixpoint getopts (opts : list opt) (v : vars) : option vars :=
  match opts with
  | [] => Some v
  | o :: rest =>
      match setopt v o with
      | Some v => getopts rest v
      | None => None
      end
  end.

(** What the script runs after the option loop.  A call of one of the
    script's functions is one step, except for the fetch functions, whose
    body is the pair of a blocking wait ([roachprod run ... -w]) and a
    download ([roachprod get]). *)
Inductive command :=
| create_cluster
| upload_scripts
| setup_cluster
| start (b : bench)
| wait_for (b : bench)
| get_results (b : bench)
| destroy_cluster.

(** [fetch_${bench}_results] *)
Definition fetch_results (b : bench) : list command :=
  [wait_for b; get_results b].

(** The commands of the script in the order it reaches them, when none
    fails. *)
Definition script (v : vars) : list command :=
  (if do_create v then [create_cluster] else []) ++
  (if do_upload v then [upload_scripts] else []) ++
  (if do_setup v then [setup_cluster] else []) ++
  (if f_resume v then [] else map start (benchmarks v)) ++
  flat_map fetch_results (benchmarks v) ++
  (if do_destroy v then [destroy_cluster] else []).

(** [set -e]: the commands issued are those up to and including the
    first that fails; [ok n] tells whether the [n]-th command issued
    exits with status zero. *)
Fixpoint errexit (ok : nat → bool) (n : nat) (cs : list command) : list command :=
  match cs with
  | [] => []
  | c :: rest => c :: (if ok n then errexit ok (S n) rest else [])
  end.

(** The commands one invocation issues. *)
Definition run (ok : nat → bool) (opts : list opt) (v0 : vars) : list command :=
  match getopts opts v0 with
  | Some v => errexit ok 0 (script v)
  | None => []
  end.

(** ** Vocabulary for the properties *)

Definition is_start (c : command) : bool :=
  match c with start _ => true | _ => false end.

(** The commands that belong to a benchmark: its start, the wait for it
    and the download of its results. *)
Definition of_benchmark (c : command) : bool :=
  match c with
  | start _ | wait_for _ | get_results _ => true
  | _ => false
  end.

(** Every command exits with status zero. *)
Definition all_ok : nat → bool := λ _, true.

(** [-w cpu -r -w tpcc] *)
Definition resume_two : list opt := [opt_w "cpu"; opt_r; opt_w "tpcc"].

(** The benchmarks a [-w] option adds to the list. *)
Definition requested (o : opt) : list bench :=
  match o with
  | opt_w arg =>
      if String.eqb arg "cpu" then [bench_cpu]
      else if String.eqb arg "io" then [bench_io]
      else if String.eqb arg "net" then [bench_net]
      else if String.eqb arg "tpcc" then [bench_tpcc]
      else if String.eqb arg "all" then [bench_cpu; bench_io; bench_net; bench_tpcc]
      else []
  | _ => []
  end.

(** The options the [case] has a branch for that does not call
    [usage]. *)
Definition accepted (o : opt) : bool :=
  match o with
  | opt_b arg =>
      String.eqb arg "all" || String.eqb arg "create" || String.eqb arg "upload"
      || String.eqb arg "setup"
  | opt_w arg =>
      String.eqb arg "cpu" || String.eqb arg "io" || String.eqb arg "net"
      || String.eqb arg "tpcc" || String.eqb arg "all"
  | opt_unknown => false
  | _ => true
  end.

End Driver.

(* ===================================================================== *)
(** * Part III: scripts/gen/tpcc.sh                                       *)
(* ===================================================================== *)

Module Tpcc.

(** The option variables.  The shell holds them as text: the numeric ones
    are read as numbers by [seq] only, and the flag variables are tested
    for emptiness only. *)
Record flags := Flags {
  f_force : bool;
  f_wait : bool;
  f_active : string;
  f_warehouses : string;
  f_skip_load : bool;
  f_duration : string;
  f_inc : string
}.

Definition defaults : flags := Flags false false "2500" "3500" false "30m" "250".

(** One option as [getopts 'fwsW:A:I:d:'] delivers it. *)
Inductive opt :=
| opt_f
| opt_w
| opt_W (arg : string)
| opt_A (arg : string)
| opt_I (arg : string)
| opt_s
| opt_d (arg : string)
| opt_unknown.

Definition setopt (v : flags) (o : opt) : option flags :=
  match o with
  | opt_f => Some (Flags true (f_wait v) (f_active v) (f_warehouses v) (f_skip_load v)
                     (f_duration v) (f_inc v))
  | opt_w => Some (Flags (f_force v) true (f_active v) (f_warehouses v) (f_skip_load v)
                     (f_duration v) (f_inc v))
  | opt_W arg => Some (Flags (f_force v) (f_wait v) (f_active v) arg (f_skip_load v)
                         (f_duration v) (f_inc v))
  | opt_A arg => Some (Flags (f_force v) (f_wait v) arg (f_warehouses v) (f_skip_load v)
                         (f_duration v) (f_inc v))
  | opt_I arg => Some (Flags (f_force v) (f_wait v) (f_active v) (f_warehouses v)
                         (f_skip_load v) (f_duration v) arg)
  | opt_s => Some (Flags (f_force v) (f_wait v) (f_active v) (f_warehouses v) true
                     (f_duration v) (f_inc v))
  | opt_d arg => Some (Flags (f_force v) (f_wait v) (f_active v) (f_warehouses v)
                         (f_skip_load v) arg (f_inc v))
  | opt_unknown => None
  end.

Fixpoint getopts (opts : list opt) (v : flags) : option flags :=
  match opts with
  | [] => Some v
  | o :: rest =>
      match setopt v o with
      | Some v => getopts rest v
      | None => None
      end
  end.

(** ** Files and commands *)

(** The files the script touches: the pid file with the pid it holds, the
    results directory, the success marker and the per-level reports in
    it, each named by the word of its level. *)
Record fs := FS {
  pidfile : option Z;
  logdir : bool;
  success : bool;
  reports : list string
}.

(** The commands that run once the trap is set.  A level is the word
    that [seq] printed for it. *)
Inductive command :=
| WritePid
| RmLogdir
| MkdirLogdir
| RedirectLog
| CdHome
| SqlSettings
| ImportFixtures
| Workload (active : string)
| TouchSuccess.

(** An interrupt either reaches the shell alone ([kill -INT] on its pid)
    or every process of its group (Ctrl-C in the terminal), the [tee] of
    line 71 among them. *)
Inductive signal := NoSignal | ToShell | ToGroup.

(** A field as awk holds it: one that looks like a number, with the value
    awk read, a quotient [n/d]; any other field, with its text; and a
    field past the last one of the line, which is uninitialized. *)
Inductive awk_value :=
| Number (n : Z) (d : positive)
| Text (s : string)
| Unset.

(** What the script cannot decide: its own pid; the exit status of each
    command; what a command that exits non-zero has done to the files by
    then; whether an interrupt arrives while a command runs, and whom it
    reaches; the fields of the last line of each level's report (none
    when the report is empty); what [seq] prints for arguments that are
    not plain numerals below 2^63; whether [$HOME] holds a blank, so that
    the unquoted [$pidfile] of lines 46, 53 and 66 splits into several
    words; and, for wait mode, whether the success marker exists once the
    tracked process is gone.  A command that runs twice, which takes a
    [seq] that prints a word twice, is taken to do the same both times.
    No signal other than SIGINT is modelled, and the [rm -f] of the trap
    is taken to exit zero. *)
Record world := World {
  pid : Z;
  status : command → Z;
  partial : command → fs → fs;
  sigint : command → signal;
  last_line : string → list awk_value;
  seq_other : string → string → string → list string;
  home_split : bool;
  late_success : bool
}.

Definition ok (w : world) (c : command) : bool := status w c =? 0.

(** ** The shell *)

Record state := St {
  files : fs;
  trapped : bool;
  trace : list command;
  (** ghost: how the [for] loop ended, once it did; never read *)
  ramp_end : option (option string)
}.

(** A command list goes on, or the shell exits with a status, or it is
    killed by a signal. *)
Inductive flow (A : Type) : Type :=
| Next (a : A) (s : state)
| Exit (code : Z) (s : state)
| Killed (sig : Z) (s : state).
Arguments Next {A} a s.
Arguments Exit {A} code s.
Arguments Killed {A} sig s.

Definition sh_script (A : Type) := state → flow A.

#[global] Instance sh_ret : MRet sh_script := λ A a s, Next a s.

#[global] Instance sh_bind : MBind sh_script :=
  λ A B k m s,
    match m s with
    | Next a s => k a s
    | Exit code s => Exit code s
    | Killed sig s => Killed sig s
    end.

Definition exit {A} (code : Z) : sh_script A := λ s, Exit code s.

Definition set_files (f : fs → fs) (s : state) : state :=
  St (f (files s)) (trapped s) (trace s) (ramp_end s).

(** [rm -f] on the pid file *)
Definition rm_pidfile (f : fs) : fs :=
  FS None (logdir f) (success f) (reports f).

(** [trap "rm -f $pidfile" EXIT SIGINT].  [$pidfile] is expanded here and
    split into words when the trap runs: with a blank in [$HOME] the
    [rm -f] is given other paths and the pid file stays. *)
Definition trap : sh_script unit :=
  λ s, Next tt (St (files s) true (trace s) (ramp_end s)).

Definition trap_action (w : world) (s : state) : state :=
  if home_split w then s else set_files rm_pidfile s.

Definition write_pid (w : world) (f : fs) : fs :=
  FS (Some (pid w)) (logdir f) (success f) (reports f).

Definition rm_logdir (f : fs) : fs := FS (pidfile f) false false [].

Definition mkdir_logdir (f : fs) : fs :=
  FS (pidfile f) true (success f) (reports f).

Definition write_report (active : string) (f : fs) : fs :=
  FS (pidfile f) (logdir f) (success f)
     (if bool_decide (active ∈ reports f) then reports f else reports f ++ [active]).

Definition touch_success (f : fs) : fs :=
  FS (pidfile f) (logdir f) true (reports f).

(** What a command has done to the files when it exits non-zero.  The
    world says what is left, given the files other than the pid file,
    within what the command can reach: the [echo] of line 67 the pid
    file; [rm -rf] can have removed any part of the results directory;
    [mkdir] has made nothing; a workload whose redirection was opened has
    its report; [touch] can have made the marker. *)
Definition wreck (w : world) (c : command) (f : fs) : fs :=
  let g := partial w c (rm_pidfile f) in
  match c with
  | WritePid => FS (pidfile g) (logdir f) (success f) (reports f)
  | RmLogdir =>
      FS (pidfile f) (logdir f && logdir g) (success f && success g)
         (List.filter (λ a, bool_decide (a ∈ reports g)) (reports f))
  | Workload active =>
      if bool_decide (active ∈ reports g) then write_report active f else f
  | TouchSuccess => FS (pidfile f) (logdir f) (success f || success g) (reports f)
  | _ => f
  end.

Definition is_redirect (c : command) : bool :=
  match c with RedirectLog => true | _ => false end.

Definition is_group (g : signal) : bool :=
  match g with ToGroup => true | _ => false end.

(** The output of the shell goes through the [tee] of line 71.  A
    redirection that failed has ended the script. *)
Definition tee_runs (s : state) : bool := existsb is_redirect (trace s).

(** One command.  It does its effect when it exits zero, and what the
    world says otherwise.  An interrupt that arrives while it runs is
    handled when it is over.  With no trap set the signal ends the shell.
    An interrupt that reached the group has killed the [tee]: the shell
    writes the trace line of the trap's command to the broken pipe
    ([set -x]) and is killed by SIGPIPE before [rm] runs.  Otherwise the
    trap runs and the script goes on.  Under [set -e] a non-zero status
    ends the script with that status. *)
Definition sh (w : world) (c : command) (effect : fs → fs) : sh_script unit :=
  λ s,
    let tee := tee_runs s || (is_redirect c && ok w c) in
    let s := St ((if ok w c then effect else wreck w c) (files s))
                (trapped s) (trace s ++ [c]) (ramp_end s) in
    match sigint w c with
    | NoSignal => if ok w c then Next tt s else Exit (status w c) s
    | g =>
        if negb (trapped s) then Killed 2 s
        else if is_group g && tee then Killed 13 s
        else if ok w c then Next tt (trap_action w s)
        else Exit (status w c) (trap_action w s)
    end.

(** ** External tools *)

(** A plain numeral: one or more decimal digits. *)
Definition digit (c : ascii) : option N :=
  let n := Ascii.N_of_ascii c in
  if ((48 <=? n) && (n <=? 57))%N then Some (n - 48)%N else None.

Fixpoint digits (s : string) (acc : N) : option N :=
  match s with
  | EmptyString => Some acc
  | String c rest =>
      match digit c with
      | Some d => digits rest (10 * acc + d)%N
      | None => None
      end
  end.

Definition numeral (s : string) : option N :=
  match s with
  | EmptyString => None
  | _ => digits s 0
  end.

(** A number as [seq] prints it. *)
Definition print (n : N) : string := NilZero.string_of_uint (N.to_uint n).

(** [seq FIRST INCREMENT LAST] on numbers: FIRST, FIRST+INCREMENT, ... as
    long as LAST is not passed.  A zero increment is rejected by seq,
    which then prints nothing. *)
Definition gnu_seq (first inc last : N) : list string :=
  if (inc =? 0)%N || (last <? first)%N then []
  else map (λ i, print (first + N.of_nat i * inc)%N)
           (List.seq 0 (N.to_nat ((last - first) / inc + 1))).

(** [seq $f_active $f_inc $f_warehouses], the words it prints.  GNU seq
    computes in extended precision, which is exact on integers below
    2^64; on anything but plain numerals below 2^63 (signs, fractions,
    larger values, words that are no numbers, a text that the shell
    splits) the world says what it prints. *)
Definition seq (w : world) (first inc last : string) : list string :=
  match numeral first, numeral inc, numeral last with
  | Some a, Some i, Some l =>
      if ((a <? 2 ^ 63) && (i <? 2 ^ 63) && (l <? 2 ^ 63))%N then gnu_seq a i l
      else seq_other w first inc last
  | _, _, _ => seq_other w first inc last
  end.

(** [$n] of awk on a line. *)
Definition field (n : nat) (line : list awk_value) : awk_value :=
  nth (n - 1) line Unset.

(** A number constant as awk turns it into text for a comparison with a
    field that is no number. *)
Definition text_of (k : Z) : string := NilZero.string_of_int (Z.to_int k).

(** [x > k] and [x < k] of awk for a field [x] and a number constant [k]:
    numbers are compared as numbers; a field that does not look like a
    number is compared as text, byte by byte, with the text of [k]; an
    uninitialized field counts as zero. *)
Definition gt (x : awk_value) (k : Z) : bool :=
  match x with
  | Number n d => k * Z.pos d <? n
  | Text s => match String.compare s (text_of k) with Gt => true | _ => false end
  | Unset => k <? 0
  end.

Definition lt (x : awk_value) (k : Z) : bool :=
  match x with
  | Number n d => n <? k * Z.pos d
  | Text s => match String.compare s (text_of k) with Lt => true | _ => false end
  | Unset => 0 <? k
  end.

(** [awk '{if($3 > 85 && $7 < 10000){print "pass"}}'] printed [pass] *)
Definition pass (line : list awk_value) : bool :=
  gt (field 3 line) 85 && lt (field 7 line) 10000.

(** ** The script *)

Definition ended (e : option string) : sh_script unit :=
  λ s, Next tt (St (files s) (trapped s) (trace s) (Some e)).

(** The [for active in `seq ...`] loop.  It ends with [None] when the
    levels are used up and with [Some active] on [break] at that level. *)
Fixpoint ramp (w : world) (levels : list string) : sh_script unit :=
  match levels with
  | [] => ended None
  | active :: rest =>
      sh w (Workload active) (write_report active) ;;
      if pass (last_line w active) then ramp w rest else ended (Some active)
  end.

(** [exec sh -c "( test -f success || (tail --pid $(cat $pidfile) -f
    /dev/null && test -f success) ) || (echo ...; exit 1)"] *)
Definition wait_mode (w : world) : sh_script unit :=
  λ s,
    if success (files s) then Exit 0 s
    else match pidfile (files s) with
         | Some _ => if negb (home_split w) && late_success w then Exit 0 s else Exit 1 s
         | None => Exit 1 s
         end.

(** The script after the option loop.  The guard of line 51 reads the
    pid file through the unquoted [$pidfile]; [[[ $f_inc == 0 ]]] matches
    the text of the increment against the pattern [0]. *)
Definition main (w : world) (v : flags) (pgurls : list string) : sh_script unit :=
  λ s0,
    (if f_wait v then wait_mode w
     else if bool_decide (is_Some (pidfile (files s0))) && negb (f_force v)
          then exit (if home_split w then 1 else 0)
     else if bool_decide (pgurls = []) then exit 1
     else
       trap ;;
       sh w WritePid (write_pid w) ;;
       sh w RmLogdir rm_logdir ;;
       sh w MkdirLogdir mkdir_logdir ;;
       sh w RedirectLog id ;;
       sh w CdHome id ;;
       (if f_skip_load v then mret tt
        else sh w SqlSettings id ;; sh w ImportFixtures id) ;;
       (let f_inc := if String.eqb (f_inc v) "0" then f_warehouses v else f_inc v in
        ramp w (seq w (f_active v) f_inc (f_warehouses v))) ;;
       sh w TouchSuccess touch_success) s0.

(** The EXIT trap, run when the shell exits; a shell that a signal kills
    runs none. *)
Definition at_exit (w : world) (s : state) : state :=
  if trapped s then trap_action w s else s.

Definition final {A} (w : world) (r : flow A) : state :=
  match r with
  | Next _ s => at_exit w s
  | Exit _ s => at_exit w s
  | Killed _ s => s
  end.

(** One run from the files [f0]: the state when the process is gone. *)
Definition run (w : world) (v : flags) (pgurls : list string) (f0 : fs) : state :=
  final w (main w v pgurls (St f0 false [] None)).

(** The levels whose workload was started. *)
Definition levels_run (t : list command) : list string :=
  omap (λ c, match c with Workload a => Some a | _ => None end) t.


(** The run gets as far as the [for] loop: it is not in wait mode, the
    guard lets it start, there is a pgurl, and no command before the loop
    fails. *)
Definition reaches_ramp (w : world) (v : flags) (pgurls : list string) (f0 : fs) : bool :=
  negb (f_wait v) &&
  negb (bool_decide (is_Some (pidfile f0)) && negb (f_force v)) &&
  negb (bool_decide (pgurls = [])) &&
  ok w WritePid && ok w RmLogdir && ok w MkdirLogdir && ok w RedirectLog &&
  ok w CdHome &&
  (f_skip_load v || (ok w SqlSettings && ok w ImportFixtures)).

(** No interrupt reaches the process group. *)
Definition spares_tee (w : world) : Prop := ∀ c, sigint w c ≠ ToGroup.

(** The levels the loop is given. *)
Definition levels (w : world) (v : flags) : list string :=
  seq w (f_active v) (if String.eqb (f_inc v) "0" then f_warehouses v else f_inc v)
      (f_warehouses v).

(** The stop rule in the words of the specification: each level in turn,
    up to and including the first whose report fails the rule. *)
Fixpoint through_first_failure (w : world) (ls : list string) : list string :=
  match ls with
  | [] => []
  | a :: rest =>
      a :: (if pass (last_line w a) then through_first_failure w rest else [])
  end.

(** The same when a workload may exit non-zero, which ends the script. *)
Fixpoint attempted (w : world) (ls : list string) : list string :=
  match ls with
  | [] => []
  | a :: rest =>
      a :: (if ok w (Workload a) && pass (last_line w a) then attempted w rest else [])
  end.

(** Last lines of reports: one that meets the rule and one that does
    not, in whole numbers, and two as the workload prints them, with a
    percent sign in the third field. *)
Definition line_86_9000 : list awk_value :=
  [Number 1800 1; Number 31064 1; Number 86 1; Number 293 1; Number 268 1;
   Number 402 1; Number 9000 1; Number 10200 1; Number 12000 1].

Definition line_84_9500 : list awk_value :=
  [Number 1800 1; Number 30000 1; Number 84 1; Number 310 1; Number 270 1;
   Number 410 1; Number 9500 1; Number 10900 1; Number 13000 1].

Definition line_97_percent : list awk_value :=
  [Text "1800.0s"; Number 310648 10; Text "97.7%"; Number 2934 10; Number 2684 10;
   Number 4027 10; Number 4698 10; Number 6040 10; Number 12885 10].

Definition line_100_percent : list awk_value :=
  [Text "1800.0s"; Number 321500 10; Text "100.0%"; Number 1934 10; Number 1684 10;
   Number 3027 10; Number 3698 10; Number 5040 10; Number 9885 10].

(** The same line with the number 100.0 for the third field. *)
Definition line_100_number : list awk_value :=
  [Text "1800.0s"; Number 321500 10; Number 1000 10; Number 1934 10; Number 1684 10;
   Number 3027 10; Number 3698 10; Number 5040 10; Number 9885 10].

Definition line_9_percent : list awk_value :=
  [Text "1800.0s"; Number 29300 10; Text "9.1%"; Number 29340 10; Number 26840 10;
   Number 40270 10; Number 46980 10; Number 60400 10; Number 128850 10].

(** What failing commands leave in the examples: a workload its report,
    the others the files as they were. *)
Definition leaves_report (c : command) (f : fs) : fs :=
  match c with
  | Workload active => write_report active f
  | _ => f
  end.

(** Worlds for examples: every command exits zero, no signal arrives,
    [$HOME] has no blank; in the first the report of level 2500 meets the
    rule and no other does, in the second no report meets it. *)
Definition calm (line : string → list awk_value) : world :=
  World 4242 (λ _, 0) leaves_report (λ _, NoSignal) line (λ _ _ _, []) false false.

Definition one_pass : world :=
  calm (λ a, if String.eqb a "2500" then line_86_9000 else line_84_9500).


(** The first level runs at full efficiency and with low latencies. *)
Definition full_efficiency : world :=
  calm (λ a, if String.eqb a "2500" then line_100_percent else line_97_percent).

(** Ctrl-C in the terminal while the first workload runs: the signal
    reaches the group and the workload dies of it. *)
Definition ctrl_c : world :=
  World 4242
    (λ c, match c with Workload _ => 130 | _ => 0 end)
    leaves_report
    (λ c, match c with Workload _ => ToGroup | _ => NoSignal end)
    (λ _, []) (λ _ _ _, []) false false.

(** The same signal sent to the shell alone. *)
Definition interrupted : world :=
  World 4242
    (λ c, match c with Workload _ => 130 | _ => 0 end)
    leaves_report
    (λ c, match c with Workload _ => ToShell | _ => NoSignal end)
    (λ _, []) (λ _ _ _, []) false false.

(** [one_pass] with a blank in [$HOME]. *)
Definition blank_home : world :=
  World 4242 (λ _, 0) leaves_report (λ _, NoSignal) (last_line one_pass) (λ _ _ _, [])
        true false.

Definition no_files : fs := FS None false false [].

(** [-I 0], [-W 3000] and [-f] on top of the defaults. *)
Definition zero_inc : flags := Flags false false "2500" "3500" false "30m" "0".
Definition three_levels : flags := Flags false false "2500" "3000" false "30m" "250".
Definition forced : flags := Flags true false "2500" "3500" false "30m" "250".

Definition state_of {A} (r : flow A) : state :=
  match r with Next _ s => s | Exit _ s => s | Killed _ s => s end.

(** The state in which the loop starts: the trap is set, the results
    directory has been wiped, and no level has run. *)
Definition at_loop (s : state) : Prop :=
  trapped s = true ∧ ramp_end s = None ∧ success (files s) = false ∧
  levels_run (trace s) = [] ∧ In WritePid (trace s).

(** ** A run as a list of commands *)

(** [set -e] on a list of commands: those up to and including the first
    that ends the script. *)
Fixpoint upto_fail (ok : command → bool) (cs : list command) : list command :=
  match cs with
  | [] => []
  | c :: rest => c :: (if ok c then upto_fail ok rest else [])
  end.

(** The commands of a run that starts, in order, when none ends it. *)
Definition planned (w : world) (v : flags) : list command :=
  [WritePid; RmLogdir; MkdirLogdir; RedirectLog; CdHome] ++
  (if f_skip_load v then [] else [SqlSettings; ImportFixtures]) ++
  map Workload (through_first_failure w (levels w v)) ++
  [TouchSuccess].

(** The run is not in wait mode, the guard lets it start and there is a
    pgurl. *)
Definition starts (v : flags) (pgurls : list string) (f0 : fs) : bool :=
  negb (f_wait v) &&
  negb (bool_decide (is_Some (pidfile f0)) && negb (f_force v)) &&
  negb (bool_decide (pgurls = [])).

(** What a command does to the files when it exits zero. *)
Definition effect (w : world) (c : command) : fs → fs :=
  match c with
  | WritePid => write_pid w
  | RmLogdir => rm_logdir
  | MkdirLogdir => mkdir_logdir
  | Workload active => write_report active
  | TouchSuccess => touch_success
  | _ => id
  end.

Definition perform (w : world) (f : fs) (c : command) : fs :=
  if ok w c then effect w c f else wreck w c f.

(** The [tee] runs while a command of the plan does: lines 67 to 70 come
    before the redirection. *)
Definition tee_at (w : world) (c : command) : bool :=
  match c with
  | WritePid | RmLogdir | MkdirLogdir => false
  | RedirectLog => ok w RedirectLog
  | _ => true
  end.

(** The shell outlives the command: no interrupt reaches the group while
    the [tee] runs. *)
Definition survives (w : world) (c : command) : bool :=
  negb (is_group (sigint w c) && tee_at w c).

(** The script goes on after the command. *)
Definition goes_on (w : world) (c : command) : bool := ok w c && survives w c.

(** The interrupt that arrives during [c], run from the state [s], kills
    the shell. *)
Definition kills (w : world) (c : command) (s : state) : bool :=
  is_group (sigint w c) && (tee_runs s || (is_redirect c && ok w c)).

(** A piece of script that runs the commands [cs] under [set -e] from a
    state in which the [tee] runs or not, as [tee] says: the trap stays
    set, the trace grows by the commands up to the first that ends the
    script, the files are changed by these commands and by nothing else
    but the removal of the pid file, and the piece goes on to the next
    exactly when every command lets it. *)
Definition follows {A} (w : world) (tee : bool) (m : sh_script A) (cs : list command) : Prop :=
  ∀ s, trapped s = true → tee_runs s = tee →
    trapped (state_of (m s)) = true ∧
    trace (state_of (m s)) = trace s ++ upto_fail (goes_on w) cs ∧
    (∀ f, rm_pidfile f = rm_pidfile (files s) →
          rm_pidfile (files (state_of (m s)))
          = rm_pidfile (fold_left (perform w) (upto_fail (goes_on w) cs) f)) ∧
    match m s with
    | Next _ _ => forallb (goes_on w) cs = true
    | Exit _ _ =>
        forallb (goes_on w) cs = false ∧
        forallb (survives w) (upto_fail (goes_on w) cs) = true
    | Killed _ _ => forallb (survives w) (upto_fail (goes_on w) cs) = false
    end.

(** The commands of the plan after the wipe, without the last. *)
Definition body (w : world) (v : flags) : list command :=
  [MkdirLogdir; RedirectLog; CdHome] ++
  (if f_skip_load v then [] else [SqlSettings; ImportFixtures]) ++
  map Workload (through_first_failure w (levels w v)).

(** A world that agrees with [one_pass] on what the commands return and
    print, but in which an interrupt reaches the shell during every
    command. *)
Definition noisy : world :=
  World 4242 (status one_pass) (partial one_pass) (λ _, ToShell) (last_line one_pass)
        (seq_other one_pass) false true.

(** [-s] on top of [-W 3000]. *)
Definition skipping : flags := Flags false false "2500" "3000" true "30m" "250".

(** A world in which [rm -rf] fails after it has emptied the directory. *)
Definition half_wiped : world :=
  World 4242
    (λ c, match c with RmLogdir => 1 | _ => 0 end)
    (λ c f, match c with RmLogdir => FS (pidfile f) true false [] | _ => f end)
    (λ _, NoSignal) (last_line one_pass) (λ _ _ _, []) false false.

End Tpcc.

(* ===================================================================== *)
(** * Part IV: properties                                                 *)
(* ===================================================================== *)

Module GenerateProofs.
Import Generate.

Lemma deref_assign_same l k v h :
  deref (assign l k v h) (Some l) = <[k := v]> (deref h (Some l)).
Proof. unfold assign, deref. by rewrite lookup_insert_eq. Qed.

Lemma lookup_assign_ne l l' k v h :
  l ≠ l' → assign l k v h !! l' = h !! l'.
Proof. intros. unfold assign. by rewrite lookup_insert_ne. Qed.

Lemma combineLoop_frame l entries : ∀ h l',
  l ≠ l' → combineLoop l entries h !! l' = h !! l'.
Proof.
  induction entries as [|[arg val] rest IH]; intros h l' Hne; cbn [combineLoop]; [done|].
  rewrite IH by done.
  destruct (found h (Some l) arg); [done|]. by apply lookup_assign_ne.
Qed.

Lemma combineLoop_deref l entries : ∀ h,
  deref (combineLoop l entries h) (Some l)
  = deref h (Some l) ∪ list_to_map entries.
Proof.
  induction entries as [|[arg val] rest IH]; intros h; cbn [combineLoop]; rewrite ?list_to_map_nil, ?list_to_map_cons.
  - by rewrite (right_id_L ∅ (∪)).
  - rewrite IH. unfold found. case_bool_decide as Hf.
    + destruct Hf as [x Hx]. apply map_eq. intros k.
      rewrite !lookup_union. destruct (decide (k = arg)) as [->|Hne].
      * rewrite Hx. by rewrite !union_Some_l.
      * by rewrite lookup_insert_ne.
    + rewrite deref_assign_same.
      rewrite <- insert_union_l. rewrite <- insert_union_r; [done|].
      by rewrite eq_None_not_Some.
Qed.

Lemma range_of_to_map m order : range_of m order → list_to_map order = m.
Proof.
  unfold range_of. intros Hp.
  rewrite <- (list_to_map_to_list m).
  apply list_to_map_proper; [|done].
  rewrite Hp. apply NoDup_fst_map_to_list.
Qed.

Lemma combineArgs_deref order T D h :
  range_of (deref h D) order →
  deref (combineArgs order T D h).2 (combineArgs order T D h).1
  = deref h T ∪ deref h D.
Proof.
  intros Hr. destruct T as [l|]; cbn [combineArgs fst snd].
  - rewrite combineLoop_deref. by rewrite (range_of_to_map _ _ Hr).
  - change (deref h None) with (∅ : gmap string string). by rewrite (left_id_L ∅ (∪)).
Qed.

(** C2.  Merging a target's map [T] onto the defaults [D]: a key of [T]
    keeps the value it has in [T], a key of [D] that is not in [T] gets
    the value it has in [D], and the result has no other key.  This holds
    whatever the order in which the loop visits [D], and also when [T] is
    nil. *)
Theorem combineArgs_merge (h : heap) (T D : mapref) (order : list (string * string)) :
  range_of (deref h D) order →
  let merged := deref (combineArgs order T D h).2 (combineArgs order T D h).1 in
  (∀ k v, deref h T !! k = Some v → merged !! k = Some v) ∧
  (∀ k v, deref h T !! k = None → deref h D !! k = Some v → merged !! k = Some v) ∧
  (∀ k, deref h T !! k = None → deref h D !! k = None → merged !! k = None).
Proof.
  intros Hr merged. subst merged. rewrite combineArgs_deref by done.
  repeat split.
  - intros k v Hk. by rewrite lookup_union, Hk, union_Some_l.
  - intros k v Hk Hd. by rewrite lookup_union, Hk, Hd.
  - intros k Hk Hd. by rewrite lookup_union, Hk, Hd.
Qed.


Lemma combineArgs_frame order T D h l' :
  Some l' ≠ T → (combineArgs order T D h).2 !! l' = h !! l'.
Proof.
  destruct T as [l|]; cbn [combineArgs snd]; [|done].
  intros Hne. apply combineLoop_frame. congruence.
Qed.

Lemma combineArgs_ref order T D h :
  (combineArgs order T D h).1 = match T with Some l => Some l | None => D end.
Proof. by destruct T. Qed.

Lemma evalArgs_frame E entries data evaled : ∀ h l',
  Some l' ≠ evaled → (evalArgs E entries data evaled h).1 !! l' = h !! l'.
Proof.
  induction entries as [|[arg val] rest IH]; intros h l' Hne; cbn [evalArgs]; [done|].
  destruct (Parse E val) as [t|e]; [|done].
  destruct (Execute E t h data) as [s|e]; [|done].
  destruct evaled as [l|]; [|done].
  rewrite IH by done. apply lookup_assign_ne. congruence.
Qed.

Lemma assign_dom l k v h l' : l' ∈ dom h → l' ∈ dom (assign l k v h).
Proof.
  intros H. unfold assign. apply elem_of_dom. rewrite lookup_insert_is_Some'.
  right. by apply elem_of_dom.
Qed.

Lemma combineArgs_dom order T D h l' :
  l' ∈ dom h → l' ∈ dom (combineArgs order T D h).2.
Proof.
  destruct T as [l|]; cbn [combineArgs snd]; [|done].
  revert h. induction order as [|[arg val] rest IH]; intros h Hd; cbn [combineLoop]; [done|].
  apply IH. destruct (found h (Some l) arg); [done|by apply assign_dom].
Qed.

Lemma evalArgs_dom E entries data evaled : ∀ h l',
  l' ∈ dom h → l' ∈ dom (evalArgs E entries data evaled h).1.
Proof.
  induction entries as [|[arg val] rest IH]; intros h l' Hd; cbn [evalArgs]; [done|].
  destruct (Parse E val) as [t|e]; [|done].
  destruct (Execute E t h data) as [s|e]; [|done].
  destruct evaled as [l|]; [|done].
  by apply IH, assign_dom.
Qed.

Lemma targetBody_maps V cloud machineType mc st :
  let h0 := maps st in
  let c1 := combineArgs (range V (deref h0 (CloudDetails.BenchArgs cloud)))
              (MachineConfig.BenchArgs mc) (CloudDetails.BenchArgs cloud) h0 in
  let a := make_map c1.2 in
  let c2 := combineArgs (range V (deref a.2 (CloudDetails.RoachprodArgs cloud)))
              (MachineConfig.RoachprodArgs mc) (CloudDetails.RoachprodArgs cloud) a.2 in
  let data := scriptData.Build cloud
                (clusterName (year V) machineType (CloudDetails.Cloud cloud)
                   (CloudDetails.Group cloud) (reportVersion V))
                (lifetime V) machineType (scriptsDir V) "" c1.1 in
  let e := evalArgs (eng V) (range V (deref c2.2 c2.1)) data (Some a.1) c2.2 in
  let r := targetBody V cloud machineType mc st in
  maps r.1.1 = e.1 ∧
  scriptData.BenchArgs (templateArgs r.1.2) = c1.1 ∧
  combinedArgs r.1.2 = c2.1 ∧
  evaledArgs r.1.2 = Some a.1.
Proof.
  cbv zeta. unfold targetBody.
  destruct (combineArgs _ (MachineConfig.BenchArgs mc) _ _) as [r1 h1].
  unfold make_map. cbn [fst snd].
  destruct (combineArgs _ (MachineConfig.RoachprodArgs mc) _ _) as [r2 h2].
  cbn [fst snd].
  destruct (evalArgs _ _ _ _ _) as [h4 err]. cbn [fst snd].
  destruct err; [|done..].
  destruct (OpenFile V _); [|done..].
  by destruct (Execute _ _ _ _).
Qed.


(** One iteration writes to the machine's own maps and to the map it
    makes for the evaluated arguments, and to nothing else. *)
Lemma targetBody_lookup V cloud machineType mc st l :
  l ∈ dom (maps st) →
  Some l ≠ MachineConfig.BenchArgs mc →
  Some l ≠ MachineConfig.RoachprodArgs mc →
  maps (targetBody V cloud machineType mc st).1.1 !! l = maps st !! l.
Proof.
  intros Hdom Hn1 Hn2.
  destruct (targetBody_maps V cloud machineType mc st) as (-> & _).
  set (h1 := (combineArgs _ (MachineConfig.BenchArgs mc) _ _).2).
  assert (H1 : h1 !! l = maps st !! l) by (by apply combineArgs_frame).
  assert (Hfresh : l ≠ fresh (dom h1)).
  { intros Hf. apply (is_fresh (dom h1)). rewrite <- Hf.
    apply elem_of_dom. rewrite H1. by apply elem_of_dom. }
  rewrite evalArgs_frame by (unfold make_map; cbn [fst]; congruence).
  rewrite combineArgs_frame by done.
  unfold make_map; cbn [snd]. by rewrite lookup_insert_ne.
Qed.

Lemma targetBody_dom V cloud machineType mc st l :
  l ∈ dom (maps st) → l ∈ dom (maps (targetBody V cloud machineType mc st).1.1).
Proof.
  intros Hdom.
  destruct (targetBody_maps V cloud machineType mc st) as (-> & _).
  apply evalArgs_dom, combineArgs_dom. unfold make_map; cbn [snd].
  apply elem_of_dom. rewrite lookup_insert_is_Some'. right.
  by apply elem_of_dom, combineArgs_dom.
Qed.

(** The same for the whole loop: a map that belongs to none of the
    machine types is as it was when the loop is over. *)
Lemma targetLoop_lookup V cloud machines : ∀ st l,
  l ∈ dom (maps st) →
  (∀ mt mc, (mt, mc) ∈ machines →
     Some l ≠ MachineConfig.BenchArgs mc ∧ Some l ≠ MachineConfig.RoachprodArgs mc) →
  maps (targetLoop V cloud machines st).1 !! l = maps st !! l.
Proof.
  induction machines as [|[mt mc] rest IH]; intros st l Hdom Hown; cbn [targetLoop]; [done|].
  destruct (Hown mt mc) as [Hn1 Hn2]; [by left|].
  pose proof (targetBody_lookup V cloud mt mc st l Hdom Hn1 Hn2) as Hb.
  pose proof (targetBody_dom V cloud mt mc st l Hdom) as Hd.
  destruct (targetBody V cloud mt mc st) as [[st1 vars] err]. cbn [fst snd] in *.
  destruct err; [|done..].
  rewrite IH; [done|done|]. intros mt' mc' Hin. apply (Hown mt' mc'). by right.
Qed.

(** C10, corrected statement.  Processing one machine type leaves every map
    object other than that machine's own two maps as it was, so the
    cloud-level maps and the maps of the other machine types keep their
    contents.  The merged map is the machine's own map when it has one;
    when it has none, the merged map is the cloud-level map itself, not a
    copy. *)
Theorem targetBody_frame (V : env) (cloud : CloudDetails.t) (machineType : string)
    (mc : MachineConfig.t) (st : state) :
  let r := targetBody V cloud machineType mc st in
  (∀ ref : mapref,
      (∀ l, ref = Some l → l ∈ dom (maps st)) →
      ref = None ∨ (ref ≠ MachineConfig.BenchArgs mc ∧ ref ≠ MachineConfig.RoachprodArgs mc) →
      deref (maps r.1.1) ref = deref (maps st) ref) ∧
  scriptData.BenchArgs (templateArgs r.1.2)
    = match MachineConfig.BenchArgs mc with
      | Some l => Some l
      | None => CloudDetails.BenchArgs cloud
      end ∧
  combinedArgs r.1.2
    = match MachineConfig.RoachprodArgs mc with
      | Some l => Some l
      | None => CloudDetails.RoachprodArgs cloud
      end.
Proof.
  intros r. subst r. split.
  - intros [l|] Hdom Hne; [|done].
    destruct Hne as [|[Hn1 Hn2]]; [done|].
    unfold deref. f_equal. by apply targetBody_lookup; [apply Hdom|..].
  - destruct (targetBody_maps V cloud machineType mc st) as (_ & Hb & Hc & _).
    by rewrite Hb, Hc, !combineArgs_ref.
Qed.

Lemma mapString_app f a b :
  mapString f (a +:+ b) = mapString f a +:+ mapString f b.
Proof. induction a as [|c a IH]; simpl; [done|]. by rewrite IH. Qed.

Lemma allChars_app p a b :
  allChars p (a +:+ b) = allChars p a && allChars p b.
Proof. induction a as [|c a IH]; simpl; [done|]. by rewrite IH, andb_assoc. Qed.

Lemma allChars_mapString p f s :
  allChars p (mapString f s) = allChars (λ c, p (f c)) s.
Proof. induction s as [|c s IH]; simpl; [done|]. by rewrite IH. Qed.

Lemma allChars_impl (p q : ascii → bool) s :
  (∀ c, p c = true → q c = true) → allChars p s = true → allChars q s = true.
Proof.
  intros Hpq. induction s as [|c s IH]; simpl; [done|].
  rewrite !andb_true_iff. intros [Hc Hs]. auto.
Qed.

Lemma mapString_id f s :
  allChars (λ c, bool_decide (f c = c)) s = true → mapString f s = s.
Proof.
  induction s as [|c s IH]; simpl; [done|].
  rewrite andb_true_iff, bool_decide_eq_true. intros [-> Hs]. by rewrite IH.
Qed.

Lemma string_of_uint_digits d : allChars isDigit (NilEmpty.string_of_uint d) = true.
Proof. induction d; simpl; auto. Qed.

Lemma fmt_d_numeral z : allChars isNumeral (fmt_d z) = true.
Proof.
  unfold fmt_d, NilZero.string_of_int.
  assert (Hd : ∀ d, allChars isNumeral (NilZero.string_of_uint d) = true).
  { intros d. apply allChars_impl with (p := isDigit).
    - intros c Hc. unfold isNumeral. by rewrite Hc.
    - destruct d; try apply (string_of_uint_digits (_ _)). done. }
  destruct (Z.to_int z); simpl; auto.
Qed.

Lemma numeral_kept c :
  isNumeral c = true → (if validClusterName c then "-"%char else c) = c.
Proof.
  destruct c as [[|] [|] [|] [|] [|] [|] [|] [|]]; vm_compute; congruence.
Qed.

Lemma numeral_allowed c : isNumeral c = true → allowedChar c = true.
Proof.
  unfold isNumeral, allowedChar. destruct (isLetter c), (isDigit c); simpl; auto.
Qed.

Lemma Replace_numeral s :
  allChars isNumeral s = true → ReplaceAllString s = s.
Proof.
  intros H. apply mapString_id. revert H. apply allChars_impl.
  intros c Hc. by rewrite bool_decide_eq_true, numeral_kept.
Qed.

Lemma replaced_clean c :
  validClusterName (if validClusterName c then "-"%char else c) = false.
Proof. destruct (validClusterName c) eqn:E; [done|by rewrite E]. Qed.

Lemma replaced_allowed c :
  allowedChar c || validClusterName c = true →
  allowedChar (if validClusterName c then "-"%char else c) = true.
Proof. destruct (validClusterName c); [done|]. by rewrite orb_false_r. Qed.

Lemma clusterName_shape year mt cloud group rv :
  clusterName year mt cloud group rv
  = "cldrprt" +:+ fmt_d (yearTag year) +:+ "-" +:+ ReplaceAllString mt +:+ "-"
      +:+ fmt_d (hashStrings [cloud; group; rv]).
Proof.
  unfold clusterName. unfold ReplaceAllString at 1.
  rewrite !mapString_app. fold (ReplaceAllString mt).
  fold (ReplaceAllString (fmt_d (yearTag year))).
  fold (ReplaceAllString (fmt_d (hashStrings [cloud; group; rv]))).
  rewrite (Replace_numeral (fmt_d (yearTag year))) by apply fmt_d_numeral.
  rewrite (Replace_numeral (fmt_d (hashStrings [cloud; group; rv]))) by apply fmt_d_numeral.
  reflexivity.
Qed.

(** C5, corrected statement.  The cluster name is the fixed prefix, the year tag,
    the machine type with every dot, vertical bar and underscore turned
    into a hyphen and everything else kept, and the checksum.  No dot,
    bar or underscore is left in it; it is made of letters, digits and
    hyphens whenever the machine type has no character other than
    letters, digits, hyphens, dots, bars and underscores. *)
Theorem clusterName_sanitized (year : Z) (machineType cloud group reportVersion : string) :
  let name := clusterName year machineType cloud group reportVersion in
  name = "cldrprt" +:+ fmt_d (yearTag year) +:+ "-" +:+ ReplaceAllString machineType
           +:+ "-" +:+ fmt_d (hashStrings [cloud; group; reportVersion]) ∧
  allChars (λ c, negb (validClusterName c)) name = true ∧
  (allChars (λ c, allowedChar c || validClusterName c) machineType = true →
   allChars allowedChar name = true).
Proof.
  intros name. split; [apply clusterName_shape|]. split.
  - unfold name, clusterName, ReplaceAllString. rewrite allChars_mapString.
    generalize ("cldrprt" +:+ fmt_d (yearTag year) +:+ "-" +:+ machineType +:+ "-"
       +:+ fmt_d (hashStrings [cloud; group; reportVersion])).
    intros s. induction s as [|c s IH]; simpl; [done|].
    by rewrite replaced_clean, IH.
  - intros Hmt. unfold name. rewrite clusterName_shape.
    rewrite !allChars_app.
    rewrite (allChars_impl _ _ _ numeral_allowed (fmt_d_numeral _)).
    rewrite (allChars_impl _ _ _ numeral_allowed (fmt_d_numeral _)).
    unfold ReplaceAllString. rewrite allChars_mapString.
    rewrite (allChars_impl _ _ _ replaced_allowed Hmt). done.
Qed.

Lemma append_cons (x : ascii) (a b : string) : String x a +:+ b = String x (a +:+ b).
Proof. reflexivity. Qed.

Lemma append_assoc (a b c : string) : (a +:+ b) +:+ c = a +:+ b +:+ c.
Proof. induction a as [|x a IH]; [done|]. by rewrite !append_cons, IH. Qed.

Lemma append_nil_r (a : string) : a +:+ "" = a.
Proof. induction a as [|x a IH]; [done|]. by rewrite append_cons, IH. Qed.

Lemma length_pos_iff (s : string) : (0 <? String.length s)%nat = bool_decide (s ≠ "").
Proof. by destruct s. Qed.

Lemma append_nonempty_l (a b : string) : a ≠ "" → a +:+ b ≠ "".
Proof. by destruct a. Qed.

Lemma emitted_nonempty q kv : emitted q kv ≠ "".
Proof. unfold emitted. by case_decide. Qed.

Lemma renderArgs_step q arg val rest buf :
  renderArgs q ((arg, val) :: rest) buf
  = renderArgs q rest
      (buf +:+ (if decide (buf = "") then "" else " ") +:+ emitted q (arg, val)).
Proof.
  cbn [renderArgs]. f_equal. rewrite !length_pos_iff. unfold emitted; cbn [fst snd].
  repeat case_decide; repeat case_bool_decide; try done; subst;
    rewrite ?append_assoc, ?append_nil_r; cbn [String.append];
    rewrite ?append_assoc; done.
Qed.

Lemma concat_cons sep x y l :
  String.concat sep (x :: y :: l) = x +:+ sep +:+ String.concat sep (y :: l).
Proof. done. Qed.

Lemma renderArgs_from q entries : ∀ buf,
  buf ≠ "" →
  renderArgs q entries buf
  = match entries with
    | [] => buf
    | _ => buf +:+ " " +:+ String.concat " " (map (emitted q) entries)
    end.
Proof.
  induction entries as [|[arg val] rest IH]; intros buf Hbuf; [done|].
  rewrite renderArgs_step. rewrite decide_False by done.
  rewrite IH by (by apply append_nonempty_l).
  destruct rest as [|kv rest]; [done|].
  cbn [map]. rewrite concat_cons. by rewrite !append_assoc.
Qed.

Lemma renderArgs_join q entries :
  renderArgs q entries "" = String.concat " " (map (emitted q) entries).
Proof.
  destruct entries as [|[arg val] rest]; [done|].
  rewrite renderArgs_step. rewrite decide_True by done.
  cbn [String.append]. rewrite renderArgs_from by apply emitted_nonempty.
  by destruct rest.
Qed.

Lemma printable_asciiByte val :
  allChars printable val = true → allChars asciiByte val = true.
Proof.
  apply allChars_impl. intros c. unfold printable, asciiByte. cbv zeta.
  rewrite andb_true_iff. by intros [_ ?].
Qed.

Lemma plainChar_printable val :
  allChars plainChar val = true → allChars printable val = true.
Proof.
  apply allChars_impl. intros c. unfold plainChar, printable. cbv zeta.
  rewrite !andb_true_iff. by intros [[? _] _].
Qed.

Lemma quoteByte_printable c r :
  printable c = true →
  quoteByte c +:+ r
  = if Ascii.eqb c dquote || Ascii.eqb c bslash then String bslash (String c r)
    else String c r.
Proof.
  unfold printable, quoteByte. cbv zeta. intros ->.
  by destruct (Ascii.eqb c dquote || Ascii.eqb c bslash).
Qed.

Lemma quoteBody_printable val :
  allChars printable val = true → quoteBody val = escaped val +:+ String dquote "".
Proof.
  induction val as [|c val IH]; intros H; [done|].
  cbn [allChars] in H. apply andb_true_iff in H as [Hc Hv].
  cbn [quoteBody escaped]. rewrite quoteByte_printable, IH by done.
  by destruct (Ascii.eqb c dquote || Ascii.eqb c bslash).
Qed.

Lemma Quote_printable q val :
  allChars printable val = true →
  Quote q val = String dquote (escaped val +:+ String dquote "").
Proof.
  intros H. unfold Quote. rewrite printable_asciiByte by done.
  by rewrite quoteBody_printable.
Qed.

Lemma escaped_plain val : allChars plainChar val = true → escaped val = val.
Proof.
  induction val as [|c val IH]; intros H; [done|].
  cbn [allChars] in H. apply andb_true_iff in H as [Hc Hv].
  cbn [escaped]. rewrite IH by done.
  unfold plainChar in Hc. cbv zeta in Hc.
  rewrite !andb_true_iff, !negb_true_iff in Hc. destruct Hc as [[_ ->] ->]. done.
Qed.

Lemma Quote_plain q val :
  allChars plainChar val = true → Quote q val = String dquote (val +:+ String dquote "").
Proof.
  intros H. rewrite Quote_printable by (by apply plainChar_printable).
  by rewrite escaped_plain.
Qed.

Lemma range_of_elem m order k v :
  range_of m order → (k, v) ∈ order ↔ m !! k = Some v.
Proof. unfold range_of. intros ->. apply elem_of_map_to_list. Qed.

(** C9, corrected statement.  The rendered string is the arguments' texts
    joined by single spaces, one text per evaluated argument.  An
    argument whose value is empty gives the bare flag [--name].  Any
    other gives [--name=] followed by the value as [%q] quotes it: for a
    value of printable ASCII characters, the value between double quotes
    with a backslash before each of its double quotes and backslashes,
    which is the value itself between the quotes when it has neither. *)
Theorem renderArgs_flags (quoteRunes : string → string)
    (evaled : gmap string string) (order : list (string * string)) :
  range_of evaled order →
  renderArgs quoteRunes order "" = String.concat " " (map (emitted quoteRunes) order) ∧
  (∀ name val, (name, val) ∈ order ↔ evaled !! name = Some val) ∧
  (∀ name, emitted quoteRunes (name, "") = "--" +:+ name) ∧
  (∀ name val, val ≠ "" →
     emitted quoteRunes (name, val) = "--" +:+ name +:+ "=" +:+ Quote quoteRunes val) ∧
  (∀ val, allChars printable val = true →
     Quote quoteRunes val = String dquote (escaped val +:+ String dquote "")) ∧
  (∀ name val, val ≠ "" → allChars plainChar val = true →
     emitted quoteRunes (name, val) = literal (name, val)).
Proof.
  intros Hr. split; [apply renderArgs_join|]. split; [|split; [|split; [|split]]].
  - intros name val. by apply range_of_elem.
  - done.
  - intros name val Hv. unfold emitted; cbn [fst snd]. by rewrite decide_False.
  - apply Quote_printable.
  - intros name val Hv Hp. unfold emitted, literal; cbn [fst snd].
    rewrite decide_False by done. by rewrite Quote_plain.
Qed.

Lemma range_of_NoDup m order : range_of m order → NoDup order.*1.
Proof. unfold range_of. intros ->. apply NoDup_fst_map_to_list. Qed.

Lemma evalError_contains arg e : contains (evalError arg e) arg.
Proof. by exists "error evaluating arg ", (": " +:+ e). Qed.

Lemma evalArgs_Error E entries data evaled : ∀ h h' msg,
  evalArgs E entries data evaled h = (h', Error msg) →
  ∃ arg val t hc e,
    (arg, val) ∈ entries ∧ Parse E val = Ok t ∧
    Execute E t hc data = Err e ∧ msg = evalError arg e.
Proof.
  induction entries as [|[arg val] rest IH]; intros h h' msg; cbn [evalArgs]; [done|].
  destruct (Parse E val) as [t|e] eqn:HP; [|done].
  destruct (Execute E t h data) as [s|e] eqn:HE.
  - destruct evaled as [l|]; [|done]. intros H.
    destruct (IH _ _ _ H) as (a & v & t' & hc & e & Hin & ?).
    exists a, v, t', hc, e. split; [by right|done].
  - intros [= <- <-]. exists arg, val, t, h, e. split; [by left|done].
Qed.

Lemma evalArgs_Panic E entries data l : ∀ h h' msg,
  evalArgs E entries data (Some l) h = (h', Panic msg) →
  ∃ arg val, (arg, val) ∈ entries ∧ Parse E val = Err msg.
Proof.
  induction entries as [|[arg val] rest IH]; intros h h' msg; cbn [evalArgs]; [done|].
  destruct (Parse E val) as [t|e] eqn:HP.
  - destruct (Execute E t h data) as [s|e]; [|done]. intros H.
    destruct (IH _ _ _ H) as (a & v & Hin & ?). exists a, v. split; [by right|done].
  - intros [= <- <-]. exists arg, val. split; [by left|done].
Qed.

Lemma evalArgs_Nil_other E entries data l : ∀ h h' k,
  evalArgs E entries data (Some l) h = (h', Nil) →
  k ∉ entries.*1 →
  deref h' (Some l) !! k = deref h (Some l) !! k.
Proof.
  induction entries as [|[arg val] rest IH]; intros h h' k; cbn [evalArgs].
  - by intros [= <-].
  - destruct (Parse E val) as [t|e]; [|done].
    destruct (Execute E t h data) as [s|e]; [|done].
    intros H Hk. rewrite fmap_cons in Hk. apply not_elem_of_cons in Hk as [Hne Hk]. cbn [fst] in Hne.
    rewrite (IH _ _ _ H Hk), deref_assign_same. by rewrite lookup_insert_ne.
Qed.

Lemma evalArgs_Nil E entries data l : ∀ h h',
  evalArgs E entries data (Some l) h = (h', Nil) →
  NoDup entries.*1 →
  ∀ arg val, (arg, val) ∈ entries →
    ∃ t hc s, Parse E val = Ok t ∧ Execute E t hc data = Ok s ∧
              deref h' (Some l) !! arg = Some s.
Proof.
  induction entries as [|[a v] rest IH]; intros h h'; cbn [evalArgs].
  - intros _ _ arg val Hin. by apply elem_of_nil in Hin.
  - destruct (Parse E v) as [t|e] eqn:HP; [|done].
    destruct (Execute E t h data) as [s|e] eqn:HE; [|done].
    intros H Hnd arg val Hin. rewrite fmap_cons in Hnd.
    apply NoDup_cons in Hnd as [Hfresh Hnd]. cbn [fst] in Hfresh.
    apply elem_of_cons in Hin as [[= -> ->]|Hin].
    + exists t, h, s. split; [done|]. split; [done|].
      rewrite (evalArgs_Nil_other _ _ _ _ _ _ _ H Hfresh), deref_assign_same.
      by rewrite lookup_insert_eq.
    + by apply (IH _ _ H Hnd).
Qed.

(** C6, corrected statement.  [evalArgs] ends in one of three ways.  With a nil
    error: every argument was parsed and executed and is in the output
    under its name.  With an error: some argument's template failed to
    execute and the message names that argument.  With a panic: some
    argument's value failed to parse, and what is raised is the parse
    error, not an error that names the argument. *)
Theorem evalArgs_outcome (E : engine) (input : gmap string string)
    (order : list (string * string)) (data : scriptData.t) (l : loc) (h : heap) :
  range_of input order →
  let r := evalArgs E order data (Some l) h in
  match r.2 with
  | Nil =>
      ∀ arg val, input !! arg = Some val →
        ∃ t hc s, Parse E val = Ok t ∧ Execute E t hc data = Ok s ∧
                  deref r.1 (Some l) !! arg = Some s
  | Error msg =>
      ∃ arg val t hc e,
        input !! arg = Some val ∧ Parse E val = Ok t ∧
        Execute E t hc data = Err e ∧ msg = evalError arg e ∧ contains msg arg
  | Panic msg =>
      ∃ arg val, input !! arg = Some val ∧ Parse E val = Err msg
  end.
Proof.
  intros Hr r. destruct r as [h' st] eqn:Er. subst r. cbn [fst snd].
  destruct st as [|msg|msg].
  - intros arg val Hin. apply (range_of_elem _ _ _ _ Hr) in Hin.
    by apply (evalArgs_Nil _ _ _ _ _ _ Er (range_of_NoDup _ _ Hr)).
  - destruct (evalArgs_Error _ _ _ _ _ _ _ Er) as (arg & val & t & hc & e & Hin & HP & HE & ->).
    exists arg, val, t, hc, e. rewrite <- (range_of_elem _ _ _ _ Hr).
    repeat split; try done. apply evalError_contains.
  - destruct (evalArgs_Panic _ _ _ _ _ _ _ Er) as (arg & val & Hin & HP).
    exists arg, val. by rewrite <- (range_of_elem _ _ _ _ Hr).
Qed.

Lemma contains_chars (p : ascii → bool) msg sub :
  contains msg sub → allChars p msg = true → allChars p sub = true.
Proof.
  intros (pre & post & ->). rewrite !allChars_app, !andb_true_iff. tauto.
Qed.

(** ** Examples *)

Example hashStrings_check : hashStrings ["1234"; "56789"] = 0xCBF43926.
Proof. vm_compute. reflexivity. Qed.

Example clusterName_azure :
  clusterName 2021 "Standard_D16s_v3" "azure" "default" "v1"
  = "cldrprt22-Standard-D16s-v3-" +:+ fmt_d (hashStrings ["azure"; "default"; "v1"]).
Proof. vm_compute. reflexivity. Qed.

Example Quote_escapes q : Quote q "a\b" = String dquote ("a\\b" +:+ String dquote "").
Proof. vm_compute. reflexivity. Qed.

Example Quote_control q : Quote q (String "009" "x") = String dquote ("\tx" +:+ String dquote "").
Proof. vm_compute. reflexivity. Qed.

Example Quote_runes q : Quote q "café" = q "café".
Proof. vm_compute. reflexivity. Qed.

Lemma combineArgs_merge_witness :
  deref (combineArgs (map_to_list (deref sampleHeap (Some 1%positive)))
           (Some 3%positive) (Some 1%positive) sampleHeap).2
        (combineArgs (map_to_list (deref sampleHeap (Some 1%positive)))
           (Some 3%positive) (Some 1%positive) sampleHeap).1
    !! "gce-zones" = Some "us-east1-b".
Proof.
  destruct (combineArgs_merge sampleHeap (Some 3%positive) (Some 1%positive)
              (map_to_list (deref sampleHeap (Some 1%positive))))
    as (Hwins & _ & _).
  - unfold range_of. reflexivity.
  - apply Hwins. vm_compute. reflexivity.
Defined.

Lemma targetBody_aliases_cloud_map :
  let r := targetBody sampleEnv sampleCloud "n2_highmem.16"
             (MachineConfig.Build None None) (State sampleHeap []) in
  ¬ (scriptData.BenchArgs (templateArgs r.1.2) ≠ CloudDetails.BenchArgs sampleCloud).
Proof. intros r H. apply H. vm_compute. reflexivity. Qed.

Lemma targetBody_frame_witness :
  deref (maps (targetBody sampleEnv sampleCloud "n2-standard-16"
                 (MachineConfig.Build (Some 3%positive) (Some 4%positive))
                 (State sampleHeap [])).1.1) (Some 2%positive)
  = deref sampleHeap (Some 2%positive).
Proof.
  apply (targetBody_frame sampleEnv sampleCloud "n2-standard-16"
           (MachineConfig.Build (Some 3%positive) (Some 4%positive))
           (State sampleHeap [])).
  - intros l [= <-]. vm_compute. reflexivity.
  - right. split; discriminate.
Defined.

Lemma clusterName_keeps_space :
  allChars allowedChar (clusterName 2021 "n2 standard" "gce" "default" "v1") = false.
Proof. vm_compute. reflexivity. Qed.

Lemma clusterName_sanitized_witness :
  allChars allowedChar (clusterName 2021 "Standard_D16s_v3" "azure" "default" "v1") = true.
Proof.
  apply (clusterName_sanitized 2021 "Standard_D16s_v3" "azure" "default" "v1").
  vm_compute. reflexivity.
Defined.

Lemma renderArgs_flags_witness :
  renderArgs sampleQuoteRunes (map_to_list evaledSample) ""
  = String.concat " " (map (emitted sampleQuoteRunes) (map_to_list evaledSample)).
Proof.
  destruct (renderArgs_flags sampleQuoteRunes evaledSample (map_to_list evaledSample))
    as (Hjoin & _).
  - unfold range_of. reflexivity.
  - exact Hjoin.
Defined.

Lemma renderArgs_escapes_quotes :
  renderArgs sampleQuoteRunes [("label", quotedWord)] "" ≠ literal ("label", quotedWord) ∧
  renderArgs sampleQuoteRunes [("label", quotedWord)] ""
  = "--label=" +:+ String dquote ("say \" +:+ String dquote ("hi\" +:+
      String dquote (String dquote ""))).
Proof. split; [vm_compute; discriminate|vm_compute; reflexivity]. Qed.

Example renderArgs_sample q :
  renderArgs q [("gce-zones", "us-east1-b"); ("local-ssd", "")] ""
  = "--gce-zones=" +:+ String dquote ("us-east1-b" +:+ String dquote " --local-ssd").
Proof. vm_compute. reflexivity. Qed.

Lemma evalArgs_parse_failure_panics :
  ¬ (∃ msg,
       (evalArgs sampleEngine (map_to_list unparsable) sampleData
          (Some 5%positive) sampleHeap).2 = Error msg ∧
       contains msg "gce-zones") ∧
  ∃ msg,
    (evalArgs sampleEngine (map_to_list unparsable) sampleData
       (Some 5%positive) sampleHeap).2 = Panic msg ∧
    ¬ contains msg "gce-zones".
Proof.
  split.
  - intros (msg & H & _). vm_compute in H. discriminate.
  - eexists. split; [vm_compute; reflexivity|].
    intros H.
    assert (Hz : allChars (λ x, negb (Ascii.eqb x "z")) "gce-zones" = true).
    { apply (contains_chars _ _ _ H). vm_compute. reflexivity. }
    vm_compute in Hz. discriminate.
Qed.

Lemma evalArgs_outcome_witness :
  ∃ msg arg,
    (evalArgs sampleEngine (map_to_list unknownField) sampleData
       (Some 5%positive) sampleHeap).2 = Error msg ∧
    is_Some (unknownField !! arg) ∧ contains msg arg.
Proof.
  pose proof (evalArgs_outcome sampleEngine unknownField (map_to_list unknownField)
                sampleData 5%positive sampleHeap ltac:(unfold range_of; reflexivity)) as H.
  cbv zeta in H.
  set (r := evalArgs sampleEngine (map_to_list unknownField) sampleData
              (Some 5%positive) sampleHeap) in *.
  assert (Hr : r.2 = Error (evalError "gce-image"
                 "template: arg:1:2: executing arg: can't evaluate field Nope"))
    by (vm_compute; reflexivity).
  rewrite Hr in H. destruct H as (arg & val & t & hc & e & Hin & _ & _ & Hmsg & Hc).
  exists (evalError "gce-image"
            "template: arg:1:2: executing arg: can't evaluate field Nope"), arg.
  split; [exact Hr|]. split; [by exists val|exact Hc].
Defined.

End GenerateProofs.

Module DriverProofs.
Import Driver.

Lemma setopt_keeps_resume v o v' :
  setopt v o = Some v' → f_resume v = true → f_resume v' = true.
Proof.
  destruct o; cbn [setopt]; repeat case_match; intros [= <-]; done.
Qed.

Lemma setopt_r v v' : setopt v opt_r = Some v' → f_resume v' = true.
Proof. by intros [= <-]. Qed.

Lemma getopts_keeps_resume opts : ∀ v v',
  getopts opts v = Some v' → f_resume v = true → f_resume v' = true.
Proof.
  induction opts as [|o opts IH]; intros v v'; cbn [getopts].
  - by intros [= <-].
  - destruct (setopt v o) as [v1|] eqn:E; [|done].
    intros H Hr. apply (IH _ _ H). by apply (setopt_keeps_resume _ _ _ E).
Qed.

Lemma getopts_resume opts : ∀ v v',
  In opt_r opts → getopts opts v = Some v' → f_resume v' = true.
Proof.
  induction opts as [|o opts IH]; intros v v' Hin; [done|]. cbn [getopts].
  destruct (setopt v o) as [v1|] eqn:E; [|done]. intros H.
  destruct Hin as [->|Hin].
  - apply (getopts_keeps_resume _ _ _ H). by apply (setopt_r v).
  - by apply (IH v1).
Qed.

Lemma errexit_prefix ok cs : ∀ n, errexit ok n cs `prefix_of` cs.
Proof.
  induction cs as [|c cs IH]; intros n; cbn [errexit]; [done|].
  destruct (ok n).
  - by apply prefix_cons.
  - by exists cs.
Qed.

Lemma errexit_all_ok ok cs : ∀ n, (∀ i, ok i = true) → errexit ok n cs = cs.
Proof.
  induction cs as [|c cs IH]; intros n Hok; cbn [errexit]; [done|].
  by rewrite Hok, IH.
Qed.

Lemma filter_prefix {A} (p : A → bool) (l1 l2 : list A) :
  l1 `prefix_of` l2 → List.filter p l1 `prefix_of` List.filter p l2.
Proof. intros [k ->]. rewrite List.filter_app. by eexists. Qed.

Lemma Forall_prefix {A} (P : A → Prop) (l1 l2 : list A) :
  l1 `prefix_of` l2 → Forall P l2 → Forall P l1.
Proof. intros [k ->]. by rewrite Forall_app; intros [? _]. Qed.

Lemma filter_fetches bs :
  List.filter of_benchmark (flat_map fetch_results bs) = flat_map fetch_results bs.
Proof. induction bs as [|b bs IH]; cbn; [done|]. by rewrite IH. Qed.

Lemma fetches_no_start bs :
  Forall (λ c, is_start c = false) (flat_map fetch_results bs).
Proof. induction bs as [|b bs IH]; cbn; [done|]. by repeat constructor. Qed.

Lemma script_resume v :
  f_resume v = true →
  Forall (λ c, is_start c = false) (script v) ∧
  List.filter of_benchmark (script v) = flat_map fetch_results (benchmarks v).
Proof.
  intros Hr. unfold script. rewrite Hr. split.
  - rewrite !Forall_app. repeat split; try (case_match; by repeat constructor).
    + done.
    + apply fetches_no_start.
  - rewrite !List.filter_app, filter_fetches.
    destruct (do_create v), (do_upload v), (do_setup v), (do_destroy v); cbn;
      by rewrite ?app_nil_r.
Qed.

(** C7.  When [-r] is among the options, no benchmark is started,
    whatever the commands' outcomes; the waits and downloads that are
    issued are an initial part of the wait-and-download pairs of the
    requested benchmarks in the order of the request, and they are all of
    them when no command fails. *)
Theorem resume_waits_without_starting (ok : nat → bool) (opts : list opt) (v0 v : vars) :
  In opt_r opts →
  getopts opts v0 = Some v →
  let issued := run ok opts v0 in
  Forall (λ c, is_start c = false) issued ∧
  List.filter of_benchmark issued `prefix_of` flat_map fetch_results (benchmarks v) ∧
  ((∀ n, ok n = true) →
   List.filter of_benchmark issued = flat_map fetch_results (benchmarks v)).
Proof.
  intros Hin Hg issued. subst issued. unfold run. rewrite Hg.
  destruct (script_resume v (getopts_resume _ _ _ Hin Hg)) as [Hs Hf].
  split; [|split].
  - by apply (Forall_prefix _ _ _ (errexit_prefix ok (script v) 0)).
  - rewrite <- Hf. apply filter_prefix, errexit_prefix.
  - intros Hok. by rewrite errexit_all_ok.
Qed.

Lemma resume_waits_witness :
  List.filter of_benchmark (run all_ok resume_two (initial "" "" "" ""))
  = [wait_for bench_cpu; get_results bench_cpu; wait_for bench_tpcc; get_results bench_tpcc].
Proof.
  apply (resume_waits_without_starting all_ok resume_two (initial "" "" "" "")
           (Vars [bench_cpu; bench_tpcc] true false false false false "4" "" "" "" "" "")).
  - right. left. reflexivity.
  - reflexivity.
  - intros n. reflexivity.
Defined.

Example normal_mode_starts :
  run all_ok [opt_w "cpu"; opt_w "tpcc"] (initial "" "" "" "")
  = [start bench_cpu; start bench_tpcc;
     wait_for bench_cpu; get_results bench_cpu;
     wait_for bench_tpcc; get_results bench_tpcc].
Proof. reflexivity. Qed.

End DriverProofs.

Module TpccProofs.
Import Tpcc.

(** ** One command *)

Lemma sh_spec w c eff s :
  trapped s = true →
  let r := sh w c eff s in
  trapped (state_of r) = true ∧
  trace (state_of r) = trace s ++ [c] ∧
  ramp_end (state_of r) = ramp_end s ∧
  rm_pidfile (files (state_of r))
  = rm_pidfile ((if ok w c then eff else wreck w c) (files s)) ∧
  match r with
  | Next _ _ => ok w c = true ∧ kills w c s = false
  | Exit _ _ => ok w c = false ∧ kills w c s = false
  | Killed _ _ => kills w c s = true
  end.
Proof.
  intros Ht r. subst r. unfold sh, kills, trap_action, set_files.
  cbn [trapped]. rewrite Ht. cbn [negb].
  destruct (sigint w c), (ok w c), (home_split w), (tee_runs s), (is_redirect c);
    cbn; done.
Qed.

Lemma sh_trapped w c eff s :
  trapped s = true → trapped (state_of (sh w c eff s)) = true.
Proof. intros Ht. by destruct (sh_spec w c eff s Ht) as (? & _). Qed.

Lemma sh_trace w c eff s :
  trapped s = true → trace (state_of (sh w c eff s)) = trace s ++ [c].
Proof. intros Ht. by destruct (sh_spec w c eff s Ht) as (_ & ? & _). Qed.

Lemma sh_ramp_end w c eff s :
  trapped s = true → ramp_end (state_of (sh w c eff s)) = ramp_end s.
Proof. intros Ht. by destruct (sh_spec w c eff s Ht) as (_ & _ & ? & _). Qed.

Lemma rm_pidfile_eq f f' :
  rm_pidfile f = rm_pidfile f' ↔
  logdir f = logdir f' ∧ success f = success f' ∧ reports f = reports f'.
Proof.
  unfold rm_pidfile. split.
  - by intros [= -> -> ->].
  - by intros (-> & -> & ->).
Qed.

Lemma sh_success w c eff s :
  trapped s = true →
  success (files (state_of (sh w c eff s)))
  = success ((if ok w c then eff else wreck w c) (files s)).
Proof.
  intros Ht. destruct (sh_spec w c eff s Ht) as (_ & _ & _ & H & _).
  by apply rm_pidfile_eq in H as (_ & ? & _).
Qed.

Lemma spares_tee_kills w c s : spares_tee w → kills w c s = false.
Proof. intros H. unfold kills. specialize (H c). by destruct (sigint w c). Qed.

(** A command that exits zero in a world whose interrupts spare the
    [tee]. *)
Lemma sh_ok w c eff s :
  spares_tee w → trapped s = true → ok w c = true →
  ∃ s', sh w c eff s = Next tt s' ∧ trapped s' = true ∧
        ramp_end s' = ramp_end s ∧ trace s' = trace s ++ [c] ∧
        success (files s') = success (eff (files s)).
Proof.
  intros Hsp Ht Hok.
  destruct (sh_spec w c eff s Ht) as (H1 & H2 & H3 & _ & H5).
  pose proof (sh_success w c eff s Ht) as H4. rewrite Hok in H4.
  destruct (sh w c eff s) as [[] s'|code s'|sig s']; cbn [state_of] in *.
  - by exists s'.
  - destruct H5 as [H5 _]. congruence.
  - by rewrite spares_tee_kills in H5.
Qed.

Lemma wreck_workload_success w a f : success (wreck w (Workload a) f) = success f.
Proof. unfold wreck. by case_bool_decide. Qed.

(** A workload in such a world. *)
Lemma sh_workload w a s :
  spares_tee w → trapped s = true →
  let r := sh w (Workload a) (write_report a) s in
  trapped (state_of r) = true ∧
  trace (state_of r) = trace s ++ [Workload a] ∧
  ramp_end (state_of r) = ramp_end s ∧
  success (files (state_of r)) = success (files s) ∧
  (if ok w (Workload a) then ∃ s', r = Next tt s' else ∃ code s', r = Exit code s').
Proof.
  intros Hsp Ht r. subst r.
  destruct (sh_spec w (Workload a) (write_report a) s Ht) as (H1 & H2 & H3 & _ & H5).
  pose proof (sh_success w (Workload a) (write_report a) s Ht) as H4.
  split; [done|]. split; [done|]. split; [done|]. split.
  - rewrite H4. destruct (ok w (Workload a)); [done|apply wreck_workload_success].
  - destruct (sh w (Workload a) (write_report a) s) as [[] s'|code s'|sig s'].
    + destruct H5 as [-> _]. by eexists.
    + destruct H5 as [-> _]. by do 2 eexists.
    + by rewrite spares_tee_kills in H5.
Qed.

Lemma levels_run_app t1 t2 : levels_run (t1 ++ t2) = levels_run t1 ++ levels_run t2.
Proof. unfold levels_run. apply omap_app. Qed.

(** ** The loop *)

Lemma ramp_spec w ls : spares_tee w → ∀ s,
  trapped s = true → ramp_end s = None →
  let r := ramp w ls s in
  trapped (state_of r) = true ∧
  success (files (state_of r)) = success (files s) ∧
  levels_run (trace (state_of r)) = levels_run (trace s) ++ attempted w ls ∧
  match r with
  | Next _ s' => is_Some (ramp_end s')
  | Exit _ s' => ramp_end s' = None
  | Killed _ _ => False
  end.
Proof.
  intros Hsp. induction ls as [|a rest IH]; intros s Ht He; cbn [ramp attempted].
  - cbn. by rewrite app_nil_r.
  - unfold mbind, sh_bind.
    destruct (sh_workload w a s Hsp Ht) as (Ht1 & Htr & Hre & Hsu & Hflow).
    destruct (ok w (Workload a)) eqn:Hok.
    + destruct Hflow as [s1 E1]. rewrite E1 in *. cbn [state_of andb] in *.
      destruct (pass (last_line w a)).
      * destruct (IH s1 Ht1 (eq_trans Hre He)) as (H1 & H2 & H3 & H4).
        split; [done|]. split; [by rewrite H2|]. split; [|done].
        rewrite H3, Htr, levels_run_app. cbn. by rewrite <- app_assoc.
      * cbn. split; [done|]. split; [done|]. split; [|done].
        by rewrite Htr, levels_run_app.
    + destruct Hflow as (code & s1 & E1). rewrite E1 in *. cbn [state_of andb] in *.
      split; [done|]. split; [done|]. split; [|congruence].
      by rewrite Htr, levels_run_app.
Qed.

Ltac step Hsp Hok :=
  unfold mbind at 1, sh_bind at 1;
  match goal with
  | |- context [sh ?w ?c ?eff ?s] =>
      let s' := fresh "s" in
      let E := fresh "E" in
      let Ht := fresh "Ht" in
      let He := fresh "He" in
      let Htr := fresh "Htr" in
      let Hsu := fresh "Hsu" in
      destruct (sh_ok w c eff s Hsp ltac:(assumption) Hok)
        as (s' & E & Ht & He & Htr & Hsu);
      rewrite E; cbn beta iota
  end.

Lemma main_reaches_ramp w v pgurls f0 :
  reaches_ramp w v pgurls f0 = true →
  spares_tee w →
  ∃ s, at_loop s ∧
       main w v pgurls (St f0 false [] None)
       = (ramp w (levels w v) ≫= λ _, sh w TouchSuccess touch_success) s.
Proof.
  unfold reaches_ramp. rewrite !andb_true_iff, !negb_true_iff, orb_true_iff.
  intros [[[[[[[[Hw Hg] Hp] H1] H2] H3] H4] H5] H6] Hsp.
  unfold main. rewrite Hw. cbn [files]. rewrite Hg, Hp.
  unfold mbind at 1, sh_bind at 1, trap.
  set (s0 := St f0 true [] None).
  assert (Ht0 : trapped s0 = true) by done.
  step Hsp H1. step Hsp H2. step Hsp H3. step Hsp H4. step Hsp H5.
  assert (Hsucc : success (files s4) = false).
  { rewrite Hsu3; unfold id. rewrite Hsu2; unfold id. rewrite Hsu1; cbn [mkdir_logdir success].
    by rewrite Hsu0. }
  assert (Htrace : trace s4 = [WritePid; RmLogdir; MkdirLogdir; RedirectLog; CdHome]).
  { by rewrite Htr3, Htr2, Htr1, Htr0, Htr. }
  assert (Hend : ramp_end s4 = None).
  { by rewrite He3, He2, He1, He0, He. }
  unfold mbind at 1, sh_bind at 1.
  destruct (f_skip_load v) eqn:Hskip.
  - exists s4. split; [|done].
    repeat split; try done.
    + by rewrite Htrace.
    + rewrite Htrace. by left.
  - destruct H6 as [Hf|H6]; [done|]. apply andb_true_iff in H6 as [H6 H7].
    step Hsp H6. step Hsp H7.
    exists s6. split; [|done].
    repeat split; try done.
    + by rewrite He5, He4.
    + rewrite Hsu5; unfold id. by rewrite Hsu4.
    + by rewrite Htr5, Htr4, Htrace.
    + rewrite Htr5, Htr4, Htrace. by left.
Qed.

Lemma at_exit_facts w s :
  success (files (at_exit w s)) = success (files s) ∧
  reports (files (at_exit w s)) = reports (files s) ∧
  logdir (files (at_exit w s)) = logdir (files s) ∧
  trace (at_exit w s) = trace s ∧ ramp_end (at_exit w s) = ramp_end s ∧
  trapped (at_exit w s) = trapped s.
Proof.
  unfold at_exit, trap_action.
  destruct (trapped s) eqn:Ht, (home_split w); cbn; rewrite ?Ht; done.
Qed.

Lemma at_exit_pidfile w s :
  trapped s = true → home_split w = false → pidfile (files (at_exit w s)) = None.
Proof. intros Ht Hh. unfold at_exit, trap_action. by rewrite Ht, Hh. Qed.

Lemma levels_run_snoc t c :
  (∀ a, c ≠ Workload a) → levels_run (t ++ [c]) = levels_run t.
Proof.
  intros Hc. rewrite levels_run_app. destruct c; cbn; rewrite ?app_nil_r; try done.
  by destruct (Hc active).
Qed.

(** A run that reaches the loop in a world whose interrupts spare the
    [tee], summed up. *)
Lemma run_summary w v pgurls f0 :
  reaches_ramp w v pgurls f0 = true →
  spares_tee w →
  let st := run w v pgurls f0 in
  levels_run (trace st) = attempted w (levels w v) ∧
  (is_Some (ramp_end st) → ok w TouchSuccess = true → success (files st) = true) ∧
  (success (files st) = true → is_Some (ramp_end st)) ∧
  (home_split w = false → pidfile (files st) = None).
Proof.
  intros Hr Hsp st. subst st. unfold run.
  destruct (main_reaches_ramp _ _ _ _ Hr Hsp) as (s & (Ht & He & Hs & Hl & _) & ->).
  unfold mbind, sh_bind.
  destruct (ramp_spec w (levels w v) Hsp s Ht He) as (Ht1 & Hs1 & Hl1 & He1).
  destruct (ramp w (levels w v) s) as [[] s1|code s1|sig s1]; cbn [state_of] in *;
    [| |done].
  - destruct (sh_spec w TouchSuccess touch_success s1 Ht1) as (Ht2 & Htr2 & He2 & _ & Hfl).
    pose proof (sh_success w TouchSuccess touch_success s1 Ht1) as Hs2.
    assert (Hfin : ∃ s2, final w (sh w TouchSuccess touch_success s1) = at_exit w s2 ∧
                         s2 = state_of (sh w TouchSuccess touch_success s1)).
    { destruct (sh w TouchSuccess touch_success s1) as [[] s2|code s2|sig s2];
        [by eexists|by eexists|].
      by rewrite spares_tee_kills in Hfl. }
    destruct Hfin as (s2 & -> & ->).
    destruct (at_exit_facts w (state_of (sh w TouchSuccess touch_success s1)))
      as (-> & _ & _ & -> & -> & _).
    rewrite Htr2, He2, Hs2. rewrite levels_run_snoc by done. rewrite Hl1, Hl.
    split; [done|]. split; [by intros _ ->|]. split; [done|].
    intros Hh. by apply at_exit_pidfile.
  - cbn [final].
    destruct (at_exit_facts w s1) as (-> & _ & _ & -> & -> & _).
    rewrite Hl1, Hl, Hs1, Hs, He1. split; [done|]. split; [by intros [x Hx]|].
    split; [done|]. intros Hh. by apply at_exit_pidfile.
Qed.

Lemma attempted_all_ok w ls :
  (∀ a, ok w (Workload a) = true) → attempted w ls = through_first_failure w ls.
Proof.
  intros Hok. induction ls as [|a rest IH]; cbn; [done|]. by rewrite Hok, IH.
Qed.

Lemma through_first_failure_stop w pre : ∀ a post,
  Forall (λ b, pass (last_line w b) = true) pre →
  pass (last_line w a) = false →
  through_first_failure w (pre ++ a :: post) = pre ++ [a].
Proof.
  induction pre as [|b pre IH]; intros a post Hpre Ha; cbn.
  - by rewrite Ha.
  - apply Forall_cons in Hpre as [-> Hpre]. by rewrite IH.
Qed.

Lemma through_first_failure_all w ls :
  Forall (λ b, pass (last_line w b) = true) ls → through_first_failure w ls = ls.
Proof.
  induction ls as [|b ls IH]; intros H; cbn; [done|].
  apply Forall_cons in H as [-> H]. by rewrite IH.
Qed.

(** ** seq *)

Lemma seq_numerals w first inc last a i l :
  numeral first = Some a → numeral inc = Some i → numeral last = Some l →
  (a < 2 ^ 63)%N → (i < 2 ^ 63)%N → (l < 2 ^ 63)%N →
  seq w first inc last = gnu_seq a i l.
Proof.
  intros Ea Ei El Ha Hi Hl. unfold seq. rewrite Ea, Ei, El.
  apply N.ltb_lt in Ha, Hi, Hl. by rewrite Ha, Hi, Hl.
Qed.

Lemma gnu_seq_single first last :
  (0 < first ≤ last)%N → gnu_seq first last last = [print first].
Proof.
  intros H. unfold gnu_seq.
  rewrite (proj2 (N.eqb_neq last 0)) by lia.
  rewrite (proj2 (N.ltb_ge last first)) by lia. cbn [orb].
  rewrite (N.div_small (last - first) last) by lia.
  change (N.to_nat (0 + 1)) with 1%nat. cbn [List.seq map N.of_nat].
  f_equal. f_equal. lia.
Qed.

Lemma gnu_seq_zero first last : gnu_seq first 0 last = [].
Proof. done. Qed.

(** ** A run as a list of commands *)

Lemma upto_fail_app ok cs1 cs2 :
  upto_fail ok (cs1 ++ cs2)
  = if forallb ok cs1 then upto_fail ok cs1 ++ upto_fail ok cs2 else upto_fail ok cs1.
Proof.
  induction cs1 as [|c cs1 IH]; cbn [app upto_fail forallb]; [done|].
  destruct (ok c); cbn [andb]; [|done]. rewrite IH. by destruct (forallb ok cs1).
Qed.

Lemma upto_fail_one ok c : upto_fail ok [c] = [c].
Proof. cbn. by destruct (ok c). Qed.

Lemma upto_fail_all ok cs : forallb ok cs = true → upto_fail ok cs = cs.
Proof.
  induction cs as [|c cs IH]; cbn [upto_fail forallb]; [done|].
  intros [-> H]%andb_true_iff. by rewrite IH.
Qed.

Lemma upto_fail_snoc ok cs c :
  forallb ok cs = true → upto_fail ok (cs ++ [c]) = cs ++ [c].
Proof.
  intros H. rewrite upto_fail_app, H, upto_fail_one. by rewrite upto_fail_all.
Qed.

Lemma goes_on_survives w cs :
  forallb (goes_on w) cs = true → forallb (survives w) cs = true.
Proof.
  induction cs as [|c cs IH]; cbn [forallb]; [done|].
  unfold goes_on at 1. rewrite !andb_true_iff. intros [[_ ?] ?]. auto.
Qed.

Lemma wreck_respects w c f f' :
  rm_pidfile f = rm_pidfile f' → rm_pidfile (wreck w c f) = rm_pidfile (wreck w c f').
Proof.
  intros Hf. unfold wreck. rewrite Hf. cbv zeta.
  apply rm_pidfile_eq in Hf as (H1 & H2 & H3).
  destruct c; try (by apply rm_pidfile_eq); cbn [logdir success reports pidfile].
  - apply rm_pidfile_eq. cbn. by rewrite H1, H2, H3.
  - case_bool_decide; [|by apply rm_pidfile_eq].
    apply rm_pidfile_eq. cbn. by rewrite H1, H2, H3.
  - apply rm_pidfile_eq. cbn. by rewrite H1, H2, H3.
Qed.

Lemma effect_respects w c f f' :
  rm_pidfile f = rm_pidfile f' →
  rm_pidfile (effect w c f) = rm_pidfile (effect w c f').
Proof.
  intros (H1 & H2 & H3)%rm_pidfile_eq. apply rm_pidfile_eq.
  destruct c; cbn; rewrite ?H1, ?H2, ?H3; done.
Qed.

Lemma perform_respects w c f f' :
  rm_pidfile f = rm_pidfile f' →
  rm_pidfile (perform w f c) = rm_pidfile (perform w f' c).
Proof.
  intros Hf. unfold perform.
  destruct (ok w c); [by apply effect_respects|by apply wreck_respects].
Qed.

Lemma fold_perform_respects w cs : ∀ f f',
  rm_pidfile f = rm_pidfile f' →
  rm_pidfile (fold_left (perform w) cs f) = rm_pidfile (fold_left (perform w) cs f').
Proof.
  induction cs as [|c cs IH]; intros f f' Hf; cbn [fold_left]; [done|].
  apply IH. by apply perform_respects.
Qed.

Lemma follows_sh w tee c :
  tee_at w c = tee || (is_redirect c && ok w c) →
  follows w tee (sh w c (effect w c)) [c].
Proof.
  intros Htee s Ht Hs. rewrite upto_fail_one.
  destruct (sh_spec w c (effect w c) s Ht) as (H1 & H2 & H3 & H4 & H5).
  split; [done|]. split; [done|]. split.
  - intros f Hf. rewrite H4. cbn [fold_left].
    replace ((if ok w c then effect w c else wreck w c) (files s))
      with (perform w (files s) c) by (unfold perform; by destruct (ok w c)).
    by apply perform_respects.
  - assert (Hk : kills w c s = negb (survives w c)).
    { unfold kills, survives. by rewrite Hs, Htee, negb_involutive. }
    rewrite Hk in H5. cbn [forallb]. unfold goes_on. rewrite !andb_true_r.
    destruct (sh w c (effect w c) s) as [[] s'|code s'|sig s'].
    + destruct H5 as [-> H5]. by apply negb_false_iff in H5 as ->.
    + destruct H5 as [-> H5]. by apply negb_false_iff in H5 as ->.
    + by apply negb_true_iff in H5.
Qed.

Lemma follows_ret {A} w tee (a : A) : follows w tee (mret a) [].
Proof.
  intros s Ht Hs. cbn. rewrite app_nil_r. split; [done|]. split; [done|].
  split; [|done]. by intros f ->.
Qed.

Lemma follows_ended w tee e : follows w tee (ended e) [].
Proof.
  intros s Ht Hs. cbn. rewrite app_nil_r. split; [done|]. split; [done|].
  split; [|done]. by intros f ->.
Qed.

Lemma follows_bind {A B} w tee (m : sh_script A) (k : A → sh_script B) cs1 cs2 :
  follows w tee m cs1 →
  (∀ a, follows w (tee || existsb is_redirect cs1) (k a) cs2) →
  follows w tee (m ≫= k) (cs1 ++ cs2).
Proof.
  intros Hm Hk s Ht Hs. unfold mbind, sh_bind.
  destruct (Hm s Ht Hs) as (Ht1 & Htr1 & Hfs1 & Hf1).
  rewrite upto_fail_app, forallb_app.
  destruct (m s) as [a s1|code s1|sig s1]; cbn [state_of] in *.
  - rewrite Hf1. cbn [andb]. rewrite (upto_fail_all _ _ Hf1) in *.
    assert (Hs1 : tee_runs s1 = tee || existsb is_redirect cs1).
    { unfold tee_runs in *. by rewrite Htr1, existsb_app, Hs. }
    destruct (Hk a s1 Ht1 Hs1) as (Ht2 & Htr2 & Hfs2 & Hf2).
    split; [done|]. split; [by rewrite Htr2, Htr1, app_assoc|]. split.
    + intros f Hf. rewrite fold_left_app. apply Hfs2. symmetry. by apply Hfs1.
    + rewrite forallb_app, (goes_on_survives _ _ Hf1). cbn [andb].
      by destruct (k a s1).
  - destruct Hf1 as [Hf1 Hsv]. rewrite Hf1. by cbn.
  - destruct (forallb (goes_on w) cs1) eqn:Hg; [|done].
    rewrite (upto_fail_all _ _ Hg) in Hf1.
    by rewrite (goes_on_survives _ _ Hg) in Hf1.
Qed.

Lemma follows_ramp w ls :
  follows w true (ramp w ls) (map Workload (through_first_failure w ls)).
Proof.
  induction ls as [|a rest IH]; cbn [ramp through_first_failure map];
    [apply follows_ended|].
  apply (follows_bind w true _ _ [Workload a]);
    [by apply (follows_sh w true (Workload a))|].
  intros _. cbn [existsb is_redirect orb].
  destruct (pass (last_line w a)); [done|apply follows_ended].
Qed.

Lemma starts_main w v pgurls f0 :
  starts v pgurls f0 = true →
  ∃ m, follows w false m (planned w v) ∧
       main w v pgurls (St f0 false [] None) = m (St f0 true [] None).
Proof.
  unfold starts. rewrite !andb_true_iff, !negb_true_iff.
  intros [[Hw Hg] Hp]. unfold main. rewrite Hw. cbn [files]. rewrite Hg, Hp.
  unfold mbind at 1, sh_bind at 1, trap. cbn [files trace ramp_end].
  eexists. split; [|reflexivity]. unfold planned.
  apply (follows_bind w false _ _ [WritePid]);
    [by apply (follows_sh w false WritePid)|]. intros _. cbn [existsb is_redirect orb].
  apply (follows_bind w false _ _ [RmLogdir]);
    [by apply (follows_sh w false RmLogdir)|]. intros _. cbn [existsb is_redirect orb].
  apply (follows_bind w false _ _ [MkdirLogdir]);
    [by apply (follows_sh w false MkdirLogdir)|]. intros _. cbn [existsb is_redirect orb].
  apply (follows_bind w false _ _ [RedirectLog]);
    [by apply (follows_sh w false RedirectLog)|]. intros _. cbn [existsb is_redirect orb].
  apply (follows_bind w true _ _ [CdHome]);
    [by apply (follows_sh w true CdHome)|]. intros _. cbn [existsb is_redirect orb].
  apply (follows_bind w true).
  { destruct (f_skip_load v); [apply follows_ret|].
    apply (follows_bind w true _ _ [SqlSettings]);
      [by apply (follows_sh w true SqlSettings)|].
    intros _. by apply (follows_sh w true ImportFixtures). }
  intros _. rewrite orb_true_l.
  apply (follows_bind w true); [apply follows_ramp|]. intros _.
  rewrite orb_true_l. by apply (follows_sh w true TouchSuccess).
Qed.

Lemma run_not_started w v pgurls f0 :
  starts v pgurls f0 = false → run w v pgurls f0 = St f0 false [] None.
Proof.
  unfold starts, run, main. intros Hs.
  destruct (f_wait v).
  - unfold wait_mode. cbn [files].
    by destruct (success f0), (pidfile f0), (negb (home_split w) && late_success w).
  - cbn [files negb andb] in *.
    destruct (bool_decide (is_Some (pidfile f0)) && negb (f_force v)); [done|].
    cbn [negb andb] in Hs. apply negb_false_iff in Hs. by rewrite Hs.
Qed.

Lemma at_exit_rm_pidfile w s : rm_pidfile (files (at_exit w s)) = rm_pidfile (files s).
Proof.
  destruct (at_exit_facts w s) as (H1 & H2 & H3 & _). apply rm_pidfile_eq. done.
Qed.

(** A run that starts, in every world. *)
Lemma run_started w v pgurls f0 :
  starts v pgurls f0 = true →
  let st := run w v pgurls f0 in
  trapped st = true ∧
  trace st = upto_fail (goes_on w) (planned w v) ∧
  rm_pidfile (files st) = rm_pidfile (fold_left (perform w) (trace st) f0) ∧
  (forallb (survives w) (trace st) = true → home_split w = false →
   pidfile (files st) = None).
Proof.
  intros Hs st. subst st. unfold run.
  destruct (starts_main w v pgurls f0 Hs) as (m & Hm & ->).
  destruct (Hm (St f0 true [] None) eq_refl eq_refl) as (Ht & Htr & Hfs & Hfl).
  cbn [trace app files] in Htr, Hfs. specialize (Hfs f0 eq_refl).
  destruct (m (St f0 true [] None)) as [a s|code s|sig s]; cbn [state_of final] in *.
  - destruct (at_exit_facts w s) as (_ & _ & _ & -> & _ & ->).
    rewrite at_exit_rm_pidfile, Htr.
    split; [done|]. split; [done|]. split; [done|]. intros _ Hh.
    by apply at_exit_pidfile.
  - destruct (at_exit_facts w s) as (_ & _ & _ & -> & _ & ->).
    rewrite at_exit_rm_pidfile, Htr.
    split; [done|]. split; [done|]. split; [done|]. intros _ Hh.
    by apply at_exit_pidfile.
  - rewrite Htr. split; [done|]. split; [done|]. split; [done|].
    intros Hsv. congruence.
Qed.

Lemma In_upto_fail ok c cs : In c (upto_fail ok cs) → In c cs.
Proof.
  induction cs as [|x cs IH]; cbn [upto_fail]; [done|].
  intros [->|H]; [by left|]. right. destruct (ok x); [auto|done].
Qed.

Lemma upto_fail_prefix ok cs : upto_fail ok cs `prefix_of` cs.
Proof.
  induction cs as [|x cs IH]; cbn [upto_fail]; [done|].
  destruct (ok x); [by apply prefix_cons|by exists cs].
Qed.

Lemma upto_fail_ext ok ok' cs : (∀ c, ok c = ok' c) → upto_fail ok cs = upto_fail ok' cs.
Proof.
  intros H. induction cs as [|x cs IH]; cbn [upto_fail]; [done|]. by rewrite H, IH.
Qed.

Lemma In_upto_fail_later ok c pre rest :
  ¬ In c pre → In c (upto_fail ok (pre ++ rest)) → forallb ok pre = true.
Proof.
  intros Hnot Hin. rewrite upto_fail_app in Hin.
  destruct (forallb ok pre); [done|]. by apply In_upto_fail in Hin.
Qed.

Lemma levels_run_workloads ls : levels_run (map Workload ls) = ls.
Proof.
  unfold levels_run. induction ls as [|a ls IH]; cbn; [done|]. by rewrite IH.
Qed.

Lemma levels_run_planned w v :
  levels_run (planned w v) = through_first_failure w (levels w v).
Proof.
  unfold planned. rewrite !levels_run_app, levels_run_workloads.
  destruct (f_skip_load v); cbn; by rewrite app_nil_r.
Qed.

Lemma levels_run_prefix t1 t2 : t1 `prefix_of` t2 → levels_run t1 `prefix_of` levels_run t2.
Proof. intros [k ->]. rewrite levels_run_app. by eexists. Qed.

Lemma through_first_failure_prefix w ls : through_first_failure w ls `prefix_of` ls.
Proof.
  induction ls as [|a ls IH]; cbn; [done|].
  destruct (pass (last_line w a)); [by apply prefix_cons|by exists ls].
Qed.

Lemma spares_tee_survives w c : spares_tee w → survives w c = true.
Proof. intros H. unfold survives. specialize (H c). by destruct (sigint w c). Qed.

Lemma spares_tee_forall w cs : spares_tee w → forallb (survives w) cs = true.
Proof.
  intros H. induction cs as [|c cs IH]; cbn [forallb]; [done|].
  by rewrite spares_tee_survives, IH.
Qed.

Lemma early_survives w c :
  c = WritePid ∨ c = RmLogdir ∨ c = MkdirLogdir → survives w c = true.
Proof.
  intros [->|[->| ->]]; unfold survives; cbn; by rewrite andb_false_r.
Qed.

(** ** The claims *)


(** C3, the script at an input on which it departs from the rule.  The
    first of three levels ends with a report whose last line has [100.0%]
    in column 3 and [369.8] in column 7: awk takes the third field for
    text, finds it below the text [85], and prints nothing; the loop
    breaks after the first level, although 100.0 is above 85 and 369.8
    below 10000, and although the same line with the number 100.0 in
    column 3 passes. *)
Theorem ramp_breaks_at_full_efficiency :
  let w := full_efficiency in
  let st := run w three_levels ["postgres://n1:26257"] no_files in
  levels w three_levels = ["2500"; "2750"; "3000"] ∧
  field 3 (last_line w "2500") = Text "100.0%" ∧
  field 7 (last_line w "2500") = Number 3698 10 ∧
  pass (last_line w "2500") = false ∧
  pass line_100_number = true ∧
  levels_run (trace st) = ["2500"] ∧
  ramp_end st = Some (Some "2500").
Proof. vm_compute. done. Qed.

Lemma reached_levels_run w v pgurls f0 :
  reaches_ramp w v pgurls f0 = true →
  spares_tee w →
  (∀ a, ok w (Workload a) = true) →
  levels_run (trace (run w v pgurls f0)) = through_first_failure w (levels w v).
Proof.
  intros Hr Hsp Hok. destruct (run_summary w v pgurls f0 Hr Hsp) as (Hl & _).
  by rewrite Hl, attempted_all_ok.
Qed.

(** C4, corrected statement.  When the increment is the text [0] and the
    start level and the warehouse count are plain numerals with
    1 <= start <= count < 2^63, the loop is given one level, the start
    level, and a run that reaches the loop and that no interrupt to the
    process group kills executes exactly that one. *)
Theorem zero_increment_runs_start_level (w : world) (v : flags) (pgurls : list string)
    (f0 : fs) (a l : N) :
  reaches_ramp w v pgurls f0 = true →
  spares_tee w →
  f_inc v = "0" →
  numeral (f_active v) = Some a →
  numeral (f_warehouses v) = Some l →
  (0 < a ≤ l)%N → (l < 2 ^ 63)%N →
  levels w v = [print a] ∧ levels_run (trace (run w v pgurls f0)) = [print a].
Proof.
  intros Hr Hsp Hz Ha Hl Hb Hmax.
  destruct (run_summary w v pgurls f0 Hr Hsp) as (Hrun & _).
  assert (Hlv : levels w v = [print a]).
  { unfold levels. rewrite Hz. cbn [String.eqb Ascii.eqb Bool.eqb].
    rewrite (seq_numerals w _ _ _ a l l) by (done || lia).
    by apply gnu_seq_single. }
  split; [done|]. rewrite Hrun, Hlv. cbn. by destruct (_ && _).
Qed.

(** C8, the script at the inputs on which it leaves the pid file.  With
    Ctrl-C in the terminal during the first workload the signal reaches
    the [tee] of line 71 as well; the shell is then killed by SIGPIPE
    when it traces the command of its trap, and the pid file it wrote is
    still there when the process is gone.  With a blank in [$HOME] the
    pid file is still there after a run in which every command exited
    zero. *)
Theorem pidfile_left_behind :
  let st := run ctrl_c defaults ["postgres://n1:26257"] no_files in
  let st' := run blank_home defaults ["postgres://n1:26257"] no_files in
  In WritePid (trace st) ∧ last (trace st) = Some (Workload "2500") ∧
  pidfile (files st) = Some (pid ctrl_c) ∧
  In WritePid (trace st') ∧ last (trace st') = Some TouchSuccess ∧
  pidfile (files st') = Some (pid blank_home).
Proof. vm_compute. tauto. Qed.

(** ** Examples *)

Lemma calm_spares_tee line : spares_tee (calm line).
Proof. intros c. discriminate. Qed.


Lemma zero_increment_not_at_maximum :
  levels_run (trace (run one_pass zero_inc ["postgres://n1:26257"] no_files))
  ≠ [f_warehouses zero_inc].
Proof. vm_compute. discriminate. Qed.


Lemma zero_increment_witness :
  levels_run (trace (run one_pass zero_inc ["postgres://n1:26257"] no_files)) = ["2500"].
Proof.
  pose proof (zero_increment_runs_start_level one_pass zero_inc ["postgres://n1:26257"]
                no_files 2500 3500 eq_refl (calm_spares_tee _) eq_refl eq_refl eq_refl)
    as (_ & Hrun); [lia|reflexivity|].
  exact Hrun.
Defined.

Example interrupted_run :
  run interrupted forced ["postgres://n1:26257"] (FS (Some 7) true true [])
  = St (FS None true false ["2500"])
       true
       [WritePid; RmLogdir; MkdirLogdir; RedirectLog; CdHome; SqlSettings;
        ImportFixtures; Workload "2500"]
       None.
Proof. vm_compute. reflexivity. Qed.

Example ctrl_c_run :
  run ctrl_c forced ["postgres://n1:26257"] (FS (Some 7) true true [])
  = St (FS (Some 4242) true false ["2500"])
       true
       [WritePid; RmLogdir; MkdirLogdir; RedirectLog; CdHome; SqlSettings;
        ImportFixtures; Workload "2500"]
       None.
Proof. vm_compute. reflexivity. Qed.

Example guard_refuses :
  run one_pass defaults ["postgres://n1:26257"] (FS (Some 7) true true ["2500"])
  = St (FS (Some 7) true true ["2500"]) false [] None.
Proof. vm_compute. reflexivity. Qed.

Example getopts_zero_inc : getopts [opt_I "0"] defaults = Some zero_inc.
Proof. reflexivity. Qed.

Example getopts_three_levels : getopts [opt_W "3000"] defaults = Some three_levels.
Proof. reflexivity. Qed.

Example seq_examples w :
  seq w "2500" "250" "3000" = ["2500"; "2750"; "3000"] ∧
  seq w "2500" "3500" "3500" = ["2500"] ∧
  seq w "0" "3500" "3500" = ["0"; "3500"] ∧
  seq w "4000" "3500" "3500" = [] ∧
  seq w "2500" "00" "3500" = [] ∧
  seq w "2500" "+0" "3500" = seq_other w "2500" "+0" "3500" ∧
  seq w "18446744073709551617" "250" "18446744073709551617"
  = seq_other w "18446744073709551617" "250" "18446744073709551617".
Proof. vm_compute. done. Qed.

(** The rule on lines as the workload prints them: the third field ends
    in a percent sign and is compared as text. *)
Example pass_examples :
  pass line_86_9000 = true ∧ pass line_84_9500 = false ∧
  pass line_97_percent = true ∧ pass line_100_percent = false ∧
  pass line_9_percent = true ∧ pass [] = false.
Proof. vm_compute. done. Qed.

(** [-I 00]: the increment is not replaced, [seq] prints nothing, no
    level runs and the marker is written. *)
Example zero_increment_other_spelling :
  run one_pass (Flags false false "2500" "3500" false "30m" "00")
      ["postgres://n1:26257"] no_files
  = St (FS None true true []) true
       [WritePid; RmLogdir; MkdirLogdir; RedirectLog; CdHome; SqlSettings;
        ImportFixtures; TouchSuccess]
       (Some None).
Proof. vm_compute. reflexivity. Qed.

End TpccProofs.

(* ===================================================================== *)
(** * Part V: further properties                                          *)
(* ===================================================================== *)

Module GenerateMore.
Import Generate GenerateProofs.

(** ** combineArgs *)

Lemma combineLoop_all_found l entries : ∀ h,
  (∀ k v, (k, v) ∈ entries → is_Some (deref h (Some l) !! k)) →
  combineLoop l entries h = h.
Proof.
  induction entries as [|[arg val] rest IH]; intros h Hall; cbn [combineLoop]; [done|].
  unfold found. rewrite bool_decide_eq_true_2 by (apply (Hall arg val); by left).
  apply IH. intros k v Hin. apply (Hall k v). by right.
Qed.

Lemma combineArgs_base_deref order T D h :
  range_of (deref h D) order →
  deref (combineArgs order T D h).2 D = deref h D.
Proof.
  intros Hr. destruct T as [l|]; [|done].
  destruct D as [d|]; [|done].
  destruct (decide (d = l)) as [->|Hne].
  - pose proof (combineArgs_deref order (Some l) (Some l) h Hr) as H.
    cbn [combineArgs fst snd] in *. rewrite H. apply map_eq. intros k.
    rewrite lookup_union. by destruct (deref h (Some l) !! k).
  - cbn [combineArgs snd]. unfold deref. by rewrite combineLoop_frame.
Qed.

(** X1.  [combineArgs] never changes the defaults: the contents of
    [baseArgs] are the same after the call, also when both arguments are
    the same map, and no map object other than [machineArgs] is written
    to. *)
Theorem combineArgs_keeps_defaults (order : list (string * string)) (T D : mapref) (h : heap) :
  range_of (deref h D) order →
  deref (combineArgs order T D h).2 D = deref h D ∧
  (∀ l, Some l ≠ T → (combineArgs order T D h).2 !! l = h !! l).
Proof.
  intros Hr. split; [by apply combineArgs_base_deref|].
  intros l Hl. by apply combineArgs_frame.
Qed.

(** X2.  Merging the result once more with the same defaults changes
    nothing: the same reference comes back and the heap is as it was. *)
Theorem combineArgs_idempotent (order order' : list (string * string)) (T D : mapref) (h : heap) :
  range_of (deref h D) order →
  let r := combineArgs order T D h in
  range_of (deref r.2 D) order' →
  combineArgs order' r.1 D r.2 = r.
Proof.
  intros Hr r Hr'.
  pose proof (combineArgs_deref order T D h Hr) as Hm. fold r in Hm.
  pose proof (combineArgs_base_deref order T D h Hr) as Hb. fold r in Hb.
  pose proof (combineArgs_ref order T D h) as Href. fold r in Href.
  destruct r as [ref h1] eqn:Er. cbn [fst snd] in *.
  assert (Hfound : ∀ l, ref = Some l → combineLoop l order' h1 = h1).
  { intros l ->. apply combineLoop_all_found.
    intros k v Hin. apply (range_of_elem _ _ _ _ Hr') in Hin.
    rewrite Hb in Hin. rewrite Hm, lookup_union.
    rewrite Hin. by destruct (deref h T !! k). }
  destruct ref as [l|].
  - cbn [combineArgs]. by rewrite Hfound.
  - destruct T; [done|]. by subst D.
Qed.


(** ** hashStrings *)

Lemma crcUpdate_app c a b : crcUpdate c (a +:+ b) = crcUpdate (crcUpdate c a) b.
Proof.
  revert c. induction a as [|x a IH]; intros c; [done|].
  rewrite append_cons. cbn [crcUpdate]. apply IH.
Qed.

Lemma fold_crcUpdate vals : ∀ c,
  fold_left crcUpdate vals c = crcUpdate c (String.concat "" vals).
Proof.
  induction vals as [|v vals IH]; intros c; [done|].
  cbn [fold_left]. rewrite IH. destruct vals as [|v' vals]; [done|].
  rewrite concat_cons. change ("" +:+ ?r) with r. by rewrite crcUpdate_app.
Qed.

(** X8.  [hashStrings] sees only the concatenation of its arguments:
    where one value ends and the next begins does not change the
    checksum. *)
Theorem hashStrings_concat (vals : list string) :
  hashStrings vals = hashStrings [String.concat "" vals].
Proof. unfold hashStrings. cbn [fold_left]. by rewrite fold_crcUpdate. Qed.

Lemma lxor_below n a b :
  0 ≤ n → 0 ≤ a < 2 ^ n → 0 ≤ b < 2 ^ n → 0 ≤ Z.lxor a b < 2 ^ n.
Proof.
  intros Hn Ha Hb.
  assert (Hnn : 0 ≤ Z.lxor a b) by (apply Z.lxor_nonneg; lia).
  split; [done|].
  destruct (decide (Z.lxor a b = 0)) as [->|Hz]; [by apply Z.pow_pos_nonneg|].
  assert (Hpos : 0 < n).
  { destruct (decide (n = 0)) as [->|]; [|lia].
    change (2 ^ 0) with 1 in *. assert (a = 0) as -> by lia.
    assert (b = 0) as -> by lia. done. }
  apply Z.log2_lt_pow2; [lia|].
  eapply Z.le_lt_trans; [apply Z.log2_lxor; lia|].
  apply Z.max_lub_lt.
  - destruct (decide (a = 0)) as [->|]; [cbn; lia|]. apply Z.log2_lt_pow2; lia.
  - destruct (decide (b = 0)) as [->|]; [cbn; lia|]. apply Z.log2_lt_pow2; lia.
Qed.

Lemma crcBit_below c : 0 ≤ c < 2 ^ 32 → 0 ≤ crcBit c < 2 ^ 32.
Proof.
  intros Hc. unfold crcBit.
  assert (Hs : 0 ≤ Z.shiftr c 1 < 2 ^ 32).
  { rewrite Z.shiftr_div_pow2 by lia. change (2 ^ 1) with 2.
    split; [apply Z.div_pos; lia|]. apply Z.div_lt_upper_bound; lia. }
  destruct (Z.testbit c 0); [|done].
  apply lxor_below; [lia|done|]. split; [done|]. reflexivity.
Qed.

Lemma crcByte_below c b : 0 ≤ c < 2 ^ 32 → 0 ≤ crcByte c b < 2 ^ 32.
Proof.
  intros Hc. unfold crcByte.
  assert (H0 : 0 ≤ Z.lxor c (Z.of_N (N_of_ascii b)) < 2 ^ 32).
  { apply lxor_below; [lia|done|].
    pose proof (N_ascii_bounded b). split; [lia|].
    apply Z.lt_trans with 256; [lia|reflexivity]. }
  generalize dependent (Z.lxor c (Z.of_N (N_of_ascii b))). intros x Hx.
  do 8 (cbn [Nat.iter]; apply crcBit_below). exact Hx.
Qed.

Lemma crcUpdate_below s : ∀ c, 0 ≤ c < 2 ^ 32 → 0 ≤ crcUpdate c s < 2 ^ 32.
Proof.
  induction s as [|b s IH]; intros c Hc; [done|].
  cbn [crcUpdate]. by apply IH, crcByte_below.
Qed.

(** X9.  The checksum is a 32-bit unsigned number. *)
Theorem hashStrings_uint32 (vals : list string) : 0 ≤ hashStrings vals < 2 ^ 32.
Proof.
  unfold hashStrings. apply lxor_below; [lia| |split; [done|reflexivity]].
  rewrite fold_crcUpdate. apply crcUpdate_below. split; [done|reflexivity].
Qed.


(** ** Names *)

Lemma length_append (a b : string) :
  String.length (a +:+ b) = (String.length a + String.length b)%nat.
Proof. induction a as [|x a IH]; [done|]. rewrite append_cons. cbn. by rewrite IH. Qed.

Lemma append_cancel_r (a b c : string) : a +:+ c = b +:+ c → a = b.
Proof.
  revert b. induction a as [|x a IH]; intros [|y b] H.
  - done.
  - apply (f_equal String.length) in H. rewrite !length_append in H. cbn in H. lia.
  - apply (f_equal String.length) in H. rewrite !length_append in H. cbn in H. lia.
  - rewrite !append_cons in H. injection H as -> H. f_equal. by apply IH.
Qed.

(** X10.  For one year, cloud, group and version, two machine types get
    the same cluster name exactly when they are equal after
    sanitization. *)
Theorem clusterName_same_iff (year : Z) (mt1 mt2 cloud group reportVersion : string) :
  clusterName year mt1 cloud group reportVersion
    = clusterName year mt2 cloud group reportVersion
  ↔ ReplaceAllString mt1 = ReplaceAllString mt2.
Proof.
  rewrite !clusterName_shape. split; [|by intros ->].
  intros H. do 3 apply (inj (String.app _)) in H.
  by apply append_cancel_r in H.
Qed.

Lemma mapString_length f s : String.length (mapString f s) = String.length s.
Proof. induction s as [|c s IH]; cbn; [done|]. by rewrite IH. Qed.

Lemma mapString_compose f g s : mapString f (mapString g s) = mapString (λ c, f (g c)) s.
Proof. induction s as [|c s IH]; cbn; [done|]. by rewrite IH. Qed.

Lemma mapString_ext f g s : (∀ c, f c = g c) → mapString f s = mapString g s.
Proof. intros H. induction s as [|c s IH]; cbn; [done|]. by rewrite H, IH. Qed.

(** X7.  [FormatMachineType] leaves no dot and keeps the length; a
    machine type without a dot is unchanged; and sanitizing the
    formatted machine type for the cluster name gives what sanitizing the
    machine type itself gives. *)
Theorem FormatMachineType_dots (m : string) :
  allChars (λ c, negb (Ascii.eqb c ".")) (FormatMachineType m) = true ∧
  String.length (FormatMachineType m) = String.length m ∧
  (allChars (λ c, negb (Ascii.eqb c ".")) m = true → FormatMachineType m = m) ∧
  ReplaceAllString (FormatMachineType m) = ReplaceAllString m.
Proof.
  unfold FormatMachineType, ReplaceAllString. repeat split.
  - rewrite allChars_mapString. induction m as [|c m IH]; cbn; [done|].
    rewrite IH, andb_true_r. unfold replaceChar.
    by destruct (Ascii.eqb c ".") eqn:E; [|rewrite E].
  - apply mapString_length.
  - intros H. apply mapString_id. revert H. apply allChars_impl.
    intros c Hc. apply bool_decide_eq_true. unfold replaceChar.
    by destruct (Ascii.eqb c ".").
  - rewrite mapString_compose. apply mapString_ext. intros c.
    unfold replaceChar. destruct (Ascii.eqb c ".") eqn:E; [|done].
    apply Ascii.eqb_eq in E. by subst c.
Qed.

(** ** evalArgs *)

(** X3.  [evalArgs] stops at the first argument that fails: over the
    entries [pre] followed by [post], it is [evalArgs] over [pre], and
    only if that ends with a nil error [evalArgs] over [post] in the heap
    [pre] left; otherwise the outcome of [pre] is the outcome, and what
    [pre] had stored before the failure stays stored. *)
Theorem evalArgs_app (E : engine) (pre post : list (string * string))
    (data : scriptData.t) (evaled : mapref) (h : heap) :
  evalArgs E (pre ++ post) data evaled h
  = match evalArgs E pre data evaled h with
    | (h1, Nil) => evalArgs E post data evaled h1
    | failed => failed
    end.
Proof.
  revert h. induction pre as [|[arg val] pre IH]; intros h; [done|].
  cbn [app evalArgs].
  destruct (Parse E val) as [t|e]; [|done].
  destruct (Execute E t h data) as [s|e]; [|done].
  destruct evaled as [l|]; [|done]. apply IH.
Qed.

Lemma evalArgs_keys E entries data l : ∀ h k,
  k ∉ entries.*1 →
  deref (evalArgs E entries data (Some l) h).1 (Some l) !! k = deref h (Some l) !! k.
Proof.
  induction entries as [|[arg val] rest IH]; intros h k Hk; cbn [evalArgs]; [done|].
  rewrite fmap_cons in Hk. apply not_elem_of_cons in Hk as [Hne Hk]. cbn [fst] in Hne.
  destruct (Parse E val) as [t|e]; [|done].
  destruct (Execute E t h data) as [s|e]; [|done].
  rewrite IH by done. rewrite deref_assign_same. by rewrite lookup_insert_ne.
Qed.

(** X4.  When [evalArgs] succeeds on an empty output map, the output has
    exactly the argument names of the input: none is missing and none is
    added. *)
Theorem evalArgs_exact_names (E : engine) (input : gmap string string)
    (order : list (string * string)) (data : scriptData.t) (l : loc) (h : heap) :
  range_of input order →
  deref h (Some l) = ∅ →
  (evalArgs E order data (Some l) h).2 = Nil →
  dom (deref (evalArgs E order data (Some l) h).1 (Some l)) = dom input.
Proof.
  intros Hr Hempty Hnil.
  destruct (evalArgs E order data (Some l) h) as [h' st] eqn:Er. cbn [fst snd] in *. subst st.
  apply set_eq. intros k. rewrite !elem_of_dom. split.
  - intros Hk. destruct (input !! k) as [v|] eqn:Hin; [done|].
    assert (Hnot : k ∉ order.*1).
    { intros Hel. apply list_elem_of_fmap in Hel as ([k' v] & -> & Hel).
      apply (range_of_elem _ _ _ _ Hr) in Hel. cbn in Hin. congruence. }
    pose proof (evalArgs_keys E order data l h k Hnot) as Hkeep.
    rewrite Er in Hkeep. cbn [fst] in Hkeep.
    rewrite Hkeep, Hempty, lookup_empty in Hk. by destruct Hk.
  - intros [v Hv]. apply (range_of_elem _ _ _ _ Hr) in Hv.
    destruct (evalArgs_Nil E order data l h h' Er (range_of_NoDup _ _ Hr) k v Hv)
      as (t & hc & s & _ & _ & Hs).
    by rewrite Hs.
Qed.

(** X5.  Whatever its outcome, [evalArgs] writes to the output map
    only, and there only under the names it was given: every other map
    object, and every other entry of the output map, is as before. *)
Theorem evalArgs_writes_only_output (E : engine) (entries : list (string * string))
    (data : scriptData.t) (l : loc) (h : heap) :
  let h' := (evalArgs E entries data (Some l) h).1 in
  (∀ l', l' ≠ l → h' !! l' = h !! l') ∧
  (∀ k, k ∉ entries.*1 → deref h' (Some l) !! k = deref h (Some l) !! k).
Proof.
  intros h'. subst h'. split.
  - intros l' Hne. apply evalArgs_frame. congruence.
  - intros k Hk. by apply evalArgs_keys.
Qed.


(** ** generateCloudScripts and RunE *)

Lemma targetBody_files V cloud mt mc st :
  let r := targetBody V cloud mt mc st in
  match r.2 with
  | Nil => (files r.1.1).*1 = scriptName V cloud mt :: (files st).*1
  | _ => (files r.1.1).*1 = (files st).*1 ∨
         (files r.1.1).*1 = scriptName V cloud mt :: (files st).*1
  end.
Proof.
  cbv zeta. unfold targetBody.
  destruct (combineArgs _ (MachineConfig.BenchArgs mc) _ _) as [r1 h1].
  unfold make_map. cbn [fst snd].
  destruct (combineArgs _ (MachineConfig.RoachprodArgs mc) _ _) as [r2 h2].
  destruct (evalArgs _ _ _ _ _) as [h4 err].
  destruct err; cbn [fst snd]; [|by left..].
  fold (scriptName V cloud mt).
  destruct (OpenFile V _); cbn [fst snd]; [|by left..].
  destruct (Execute _ _ _ _); cbn; [done|by right].
Qed.

Lemma targetLoop_files V cloud machines : ∀ st,
  let r := targetLoop V cloud machines st in
  ∃ k, (k ≤ length machines)%nat ∧
    (files r.1).*1
      = rev (map (λ m, scriptName V cloud m.1) (take k machines)) ++ (files st).*1 ∧
    (r.2 = Nil → k = length machines).
Proof.
  induction machines as [|[mt mc] rest IH]; intros st; cbn [targetLoop].
  - exists 0%nat. by cbn.
  - pose proof (targetBody_files V cloud mt mc st) as Hb. cbv zeta in Hb.
    destruct (targetBody V cloud mt mc st) as [[st1 vars] err]. cbn [fst snd] in *.
    destruct err.
    + destruct (IH st1) as (k & Hk & Hf & Hn). exists (S k). cbn [length take map rev].
      split; [lia|]. split; [|intros H; by rewrite Hn].
      rewrite Hf, Hb. cbn [fst]. by rewrite <- app_assoc.
    + destruct Hb as [Hb|Hb].
      * exists 0%nat. cbn. split; [lia|]. by split.
      * exists 1%nat. cbn. split; [lia|]. by split.
    + destruct Hb as [Hb|Hb].
      * exists 0%nat. cbn. split; [lia|]. by split.
      * exists 1%nat. cbn. split; [lia|]. by split.
Qed.

(** X11.  [generateCloudScripts] writes the scripts of an initial part
    of the machine types in the order it visits them, each to the file
    named after the formatted machine type, and nothing else; when it
    returns a nil error the directories were made and that part is all of
    the machine types. *)
Theorem generateCloudScripts_files (V : env) (cloud : CloudDetails.t) (st : state) :
  let machines := rangeMachines V (CloudDetails.MachineTypes cloud) in
  let r := generateCloudScripts V cloud st in
  ∃ k, (k ≤ length machines)%nat ∧
    (files r.1).*1
      = rev (map (λ m, scriptName V cloud m.1) (take k machines)) ++ (files st).*1 ∧
    (r.2 = Nil → k = length machines ∧ makeAllDirs V cloud = Nil).
Proof.
  intros machines r. subst r. unfold generateCloudScripts.
  destruct (makeAllDirs V cloud) eqn:Hd.
  - destruct (targetLoop_files V cloud machines st) as (k & Hk & Hf & Hn).
    exists k. split; [done|]. split; [done|]. intros H. by split; [apply Hn|].
  - exists 0%nat. cbn. split; [lia|]. by split.
  - exists 0%nat. cbn. split; [lia|]. by split.
Qed.

(** X12.  A map object that exists before [generateCloudScripts] and is
    the map of none of the cloud's machine types is unchanged by it,
    whether it ends with an error or not. *)
Theorem generateCloudScripts_frame (V : env) (cloud : CloudDetails.t) (st : state) (l : loc) :
  l ∈ dom (maps st) →
  (∀ mt mc, (mt, mc) ∈ rangeMachines V (CloudDetails.MachineTypes cloud) →
     Some l ≠ MachineConfig.BenchArgs mc ∧ Some l ≠ MachineConfig.RoachprodArgs mc) →
  maps (generateCloudScripts V cloud st).1 !! l = maps st !! l.
Proof.
  intros Hdom Hown. unfold generateCloudScripts.
  destruct (makeAllDirs V cloud); [|done..].
  by apply targetLoop_lookup.
Qed.

(** X13.  The command stops at the first cloud whose generation fails:
    over the clouds [pre] followed by [post] it is the run over [pre],
    followed by the run over [post] only if that returned a nil error. *)
Theorem RunE_app (V : env) (pre post : list CloudDetails.t) (st : state) :
  RunE V (pre ++ post) st
  = match RunE V pre st with
    | (st1, Nil) => RunE V post st1
    | failed => failed
    end.
Proof.
  revert st. induction pre as [|cloud pre IH]; intros st; [done|].
  cbn [app RunE].
  destruct (generateCloudScripts V cloud st) as [st1 err].
  destruct err; [apply IH|done..].
Qed.

(** X6.  The rendered argument string is empty exactly when there is no
    argument. *)
Theorem renderArgs_empty_iff (quoteRunes : string → string) (order : list (string * string)) :
  renderArgs quoteRunes order "" = "" ↔ order = [].
Proof.
  rewrite renderArgs_join. split; [|by intros ->].
  destruct order as [|kv rest]; [done|]. cbn [map]. intros H. exfalso.
  destruct (map (emitted quoteRunes) rest) as [|x l].
  - by apply (emitted_nonempty quoteRunes kv).
  - rewrite concat_cons in H. pose proof (emitted_nonempty quoteRunes kv) as Hne.
    by destruct (emitted quoteRunes kv).
Qed.

(** ** Examples *)

Lemma combineArgs_keeps_defaults_witness :
  deref (combineArgs (map_to_list (deref sampleHeap (Some 1%positive)))
           (Some 3%positive) (Some 1%positive) sampleHeap).2 (Some 1%positive)
  = deref sampleHeap (Some 1%positive).
Proof.
  destruct (combineArgs_keeps_defaults (map_to_list (deref sampleHeap (Some 1%positive)))
              (Some 3%positive) (Some 1%positive) sampleHeap) as [Hsame _].
  - unfold range_of. reflexivity.
  - exact Hsame.
Defined.

Lemma combineArgs_idempotent_witness :
  let r := combineArgs (map_to_list (deref sampleHeap (Some 1%positive)))
             (Some 3%positive) (Some 1%positive) sampleHeap in
  combineArgs (map_to_list (deref r.2 (Some 1%positive))) r.1 (Some 1%positive) r.2 = r.
Proof.
  exact (combineArgs_idempotent (map_to_list (deref sampleHeap (Some 1%positive)))
           (map_to_list
              (deref (combineArgs (map_to_list (deref sampleHeap (Some 1%positive)))
                        (Some 3%positive) (Some 1%positive) sampleHeap).2
                 (Some 1%positive)))
           (Some 3%positive) (Some 1%positive) sampleHeap
           (Permutation_refl _) (Permutation_refl _)).
Defined.

Lemma evalArgs_exact_names_witness :
  dom (deref (evalArgs sampleEngine (map_to_list (deref sampleHeap (Some 1%positive)))
                sampleData (Some 5%positive) sampleHeap).1 (Some 5%positive))
  = dom (deref sampleHeap (Some 1%positive)).
Proof.
  apply (evalArgs_exact_names sampleEngine (deref sampleHeap (Some 1%positive))).
  - unfold range_of. reflexivity.
  - vm_compute. reflexivity.
  - vm_compute. reflexivity.
Defined.

Lemma evalArgs_writes_only_output_witness :
  (evalArgs sampleEngine (map_to_list unknownField) sampleData
     (Some 5%positive) sampleHeap).1 !! 1%positive
  = sampleHeap !! 1%positive.
Proof.
  destruct (evalArgs_writes_only_output sampleEngine (map_to_list unknownField)
              sampleData 5%positive sampleHeap) as [Hother _].
  apply Hother. discriminate.
Defined.

Lemma FormatMachineType_dots_witness : FormatMachineType "n2-standard-16" = "n2-standard-16".
Proof.
  destruct (FormatMachineType_dots "n2-standard-16") as (_ & _ & Hid & _).
  apply Hid. vm_compute. reflexivity.
Defined.

Lemma generateCloudScripts_frame_witness :
  maps (generateCloudScripts sampleEnv sampleCloud (State sampleHeap [])).1 !! 2%positive
  = sampleHeap !! 2%positive.
Proof.
  apply (generateCloudScripts_frame sampleEnv sampleCloud (State sampleHeap []) 2%positive).
  - apply elem_of_dom. eexists. vm_compute. reflexivity.
  - intros mt mc Hin. vm_compute in Hin.
    apply elem_of_cons in Hin as [[= -> ->]|Hin]; [by split|].
    apply elem_of_cons in Hin as [[= -> ->]|Hin]; [by split|].
    by apply elem_of_nil in Hin.
Defined.

Example FormatMachineType_azure :
  FormatMachineType "m5.4xlarge" = "m5-4xlarge" ∧
  scriptName sampleEnv sampleCloud "m5.4xlarge" = "report/gce/scripts/m5-4xlarge.sh".
Proof. vm_compute. done. Qed.

Example clusterName_collision :
  clusterName 2021 "n2_highmem.16" "gce" "default" "v1"
  = clusterName 2021 "n2-highmem-16" "gce" "default" "v1".
Proof. vm_compute. reflexivity. Qed.

Example generateCloudScripts_sample :
  (files (generateCloudScripts sampleEnv sampleCloud (State sampleHeap [])).1).*1
  = rev (map (λ m, scriptName sampleEnv sampleCloud m.1)
           (map_to_list (CloudDetails.MachineTypes sampleCloud))).
Proof. vm_compute. reflexivity. Qed.

End GenerateMore.

Module DriverMore.
Import Driver DriverProofs.

Ltac case_setopt :=
  repeat match goal with
         | H : context [String.eqb ?a ?b] |- _ =>
             destruct (String.eqb_spec a b); try subst a
         | |- context [String.eqb ?a ?b] =>
             destruct (String.eqb_spec a b); try subst a
         end.

Lemma setopt_accepted v o : is_Some (setopt v o) ↔ accepted o = true.
Proof.
  destruct o; cbn [setopt accepted]; case_setopt; cbn;
    split; intros H; try done; try (by eexists); by destruct H.
Qed.

Lemma setopt_benchmarks v o v' :
  setopt v o = Some v' → benchmarks v' = benchmarks v ++ requested o.
Proof.
  destruct o; cbn [setopt requested]; case_setopt; intros [= <-]; cbn;
    by rewrite ?app_nil_r.
Qed.

Lemma setopt_flags v o v' :
  setopt v o = Some v' →
  (do_create v' = true → do_create v = true ∨ o = opt_b "create" ∨ o = opt_b "all") ∧
  (do_upload v' = true → do_upload v = true ∨ o = opt_b "upload" ∨ o = opt_b "all") ∧
  (do_setup v' = true → do_setup v = true ∨ o = opt_b "setup" ∨ o = opt_b "all") ∧
  (do_destroy v' = true → do_destroy v = true ∨ o = opt_d) ∧
  (f_resume v' = true → f_resume v = true ∨ o = opt_r).
Proof.
  destruct o; cbn [setopt]; case_setopt; intros [= <-]; cbn; tauto.
Qed.

Lemma getopts_flags opts : ∀ v v',
  getopts opts v = Some v' →
  (do_create v' = true →
     do_create v = true ∨ In (opt_b "create") opts ∨ In (opt_b "all") opts) ∧
  (do_upload v' = true →
     do_upload v = true ∨ In (opt_b "upload") opts ∨ In (opt_b "all") opts) ∧
  (do_setup v' = true →
     do_setup v = true ∨ In (opt_b "setup") opts ∨ In (opt_b "all") opts) ∧
  (do_destroy v' = true → do_destroy v = true ∨ In opt_d opts) ∧
  (f_resume v' = true → f_resume v = true ∨ In opt_r opts).
Proof.
  induction opts as [|o opts IH]; intros v v'; cbn [getopts].
  - intros [= <-]. tauto.
  - destruct (setopt v o) as [v1|] eqn:E; [|done]. intros H.
    destruct (IH _ _ H) as (H1 & H2 & H3 & H4 & H5).
    destruct (setopt_flags _ _ _ E) as (G1 & G2 & G3 & G4 & G5).
    cbn [In]. repeat split; intros Hf.
    + destruct (H1 Hf) as [K|[K|K]]; [|tauto..]. destruct (G1 K) as [?|[?|?]]; auto.
    + destruct (H2 Hf) as [K|[K|K]]; [|tauto..]. destruct (G2 K) as [?|[?|?]]; auto.
    + destruct (H3 Hf) as [K|[K|K]]; [|tauto..]. destruct (G3 K) as [?|[?|?]]; auto.
    + destruct (H4 Hf) as [K|K]; [|tauto]. destruct (G4 K) as [?|?]; auto.
    + destruct (H5 Hf) as [K|K]; [|tauto]. destruct (G5 K) as [?|?]; auto.
Qed.

Lemma In_prefix {A} (x : A) (l1 l2 : list A) : l1 `prefix_of` l2 → In x l1 → In x l2.
Proof. intros [k ->] H. apply in_or_app. by left. Qed.

Lemma In_start_map c bs : In c (map start bs) → is_start c = true.
Proof. rewrite in_map_iff. by intros (b & <- & _). Qed.

Lemma In_fetches c bs :
  In c (flat_map fetch_results bs) → ∃ b, c = wait_for b ∨ c = get_results b.
Proof.
  rewrite in_flat_map. intros (b & _ & [<-|[<-|[]]]); exists b; auto.
Qed.

Lemma script_phase v c :
  In c (script v) →
  match c with
  | create_cluster => do_create v = true
  | upload_scripts => do_upload v = true
  | setup_cluster => do_setup v = true
  | destroy_cluster => do_destroy v = true
  | start _ => f_resume v = false
  | _ => True
  end.
Proof.
  unfold script. rewrite !in_app_iff.
  intros [H|[H|[H|[H|[H|H]]]]].
  - destruct (do_create v); [|done]. by destruct H as [<-|[]].
  - destruct (do_upload v); [|done]. by destruct H as [<-|[]].
  - destruct (do_setup v); [|done]. by destruct H as [<-|[]].
  - destruct (f_resume v); [done|]. apply In_start_map in H. by destruct c.
  - apply In_fetches in H as (b & [->| ->]); done.
  - destruct (do_destroy v); [|done]. by destruct H as [<-|[]].
Qed.

(** X16.  A bootstrap phase or the teardown is issued only if its flag
    was set before the option loop or the matching option was given:
    [-b create], [-b upload], [-b setup] or [-b all], and [-d]. *)
Theorem phases_only_on_request (ok : nat → bool) (opts : list opt) (v0 : vars) :
  let issued := run ok opts v0 in
  (In create_cluster issued →
     do_create v0 = true ∨ In (opt_b "create") opts ∨ In (opt_b "all") opts) ∧
  (In upload_scripts issued →
     do_upload v0 = true ∨ In (opt_b "upload") opts ∨ In (opt_b "all") opts) ∧
  (In setup_cluster issued →
     do_setup v0 = true ∨ In (opt_b "setup") opts ∨ In (opt_b "all") opts) ∧
  (In destroy_cluster issued → do_destroy v0 = true ∨ In opt_d opts).
Proof.
  intros issued. subst issued. unfold run.
  destruct (getopts opts v0) as [v|] eqn:E; [|by cbn].
  destruct (getopts_flags _ _ _ E) as (H1 & H2 & H3 & H4 & _).
  pose proof (errexit_prefix ok (script v) 0) as Hp.
  repeat split; intros Hin; apply (In_prefix _ _ _ Hp) in Hin;
    apply script_phase in Hin; auto.
Qed.

(** X14.  The option loop collects the benchmarks in the order of the
    [-w] options, [-w all] standing for the four of them, and keeps
    repetitions. *)
Theorem getopts_benchmarks (opts : list opt) (v0 v : vars) :
  getopts opts v0 = Some v →
  benchmarks v = benchmarks v0 ++ flat_map requested opts.
Proof.
  revert v0. induction opts as [|o opts IH]; intros v0; cbn [getopts flat_map].
  - intros [= <-]. by rewrite app_nil_r.
  - destruct (setopt v0 o) as [v1|] eqn:E; [|done]. intros H.
    rewrite (IH _ H), (setopt_benchmarks _ _ _ E). by rewrite app_assoc.
Qed.

(** X15.  The option loop ends in [usage] exactly when some option is
    unknown or has a value the [case] does not list, and then the script
    issues no command at all, wherever in the command line that option
    stands. *)
Theorem invalid_option_runs_nothing (ok : nat → bool) (opts : list opt) (v0 : vars) :
  (getopts opts v0 = None ↔ Exists (λ o, accepted o = false) opts) ∧
  (Exists (λ o, accepted o = false) opts → run ok opts v0 = []).
Proof.
  assert (H : getopts opts v0 = None ↔ Exists (λ o, accepted o = false) opts).
  { revert v0. induction opts as [|o opts IH]; intros v0; cbn [getopts].
    - split; [done|]. by intros H%Exists_nil.
    - rewrite Exists_cons. pose proof (setopt_accepted v0 o) as Ha.
      destruct (setopt v0 o) as [v1|] eqn:E.
      + rewrite IH. destruct Ha as [Ha _].
        rewrite Ha by (by eexists). split; [by right|]. by intros [|].
      + split; [|done]. intros _. left. destruct (accepted o); [|done].
        destruct Ha as [_ Ha]. by destruct (Ha eq_refl). }
  split; [done|]. intros He. unfold run. apply H in He. by rewrite He.
Qed.


Lemma filter_starts bs : List.filter of_benchmark (map start bs) = map start bs.
Proof. induction bs as [|b bs IH]; cbn; [done|]. by rewrite IH. Qed.

Lemma script_no_resume v :
  f_resume v = false →
  List.filter of_benchmark (script v)
  = map start (benchmarks v) ++ flat_map fetch_results (benchmarks v).
Proof.
  intros Hr. unfold script. rewrite Hr.
  rewrite !List.filter_app, filter_fetches, filter_starts.
  destruct (do_create v), (do_upload v), (do_setup v), (do_destroy v); cbn;
    by rewrite ?app_nil_r.
Qed.

(** X17.  Without [-r] every requested benchmark is started before the
    first wait: the benchmark commands issued are an initial part of all
    the starts followed by all the wait-and-download pairs, and the whole
    of it when no command fails. *)
Theorem starts_before_waits (ok : nat → bool) (opts : list opt) (v0 v : vars) :
  f_resume v0 = false →
  ¬ In opt_r opts →
  getopts opts v0 = Some v →
  let issued := List.filter of_benchmark (run ok opts v0) in
  let plan := map start (benchmarks v) ++ flat_map fetch_results (benchmarks v) in
  issued `prefix_of` plan ∧ ((∀ n, ok n = true) → issued = plan).
Proof.
  intros H0 Hr Hg issued plan. subst issued plan. unfold run. rewrite Hg.
  assert (Hres : f_resume v = false).
  { destruct (f_resume v) eqn:E; [|done].
    destruct (getopts_flags _ _ _ Hg) as (_ & _ & _ & _ & H5).
    destruct (H5 E) as [K|K]; [congruence|done]. }
  rewrite <- (script_no_resume v Hres). split.
  - apply filter_prefix, errexit_prefix.
  - intros Hok. by rewrite errexit_all_ok.
Qed.

Lemma errexit_reaches_last ok body c : ∀ n,
  ¬ In c body →
  In c (errexit ok n (body ++ [c])) →
  errexit ok n (body ++ [c]) = body ++ [c] ∧
  ∀ i, (i < length body)%nat → ok (n + i)%nat = true.
Proof.
  induction body as [|b body IH]; intros n Hnot Hin; cbn [app errexit] in *.
  - split; [by destruct (ok n)|]. cbn. lia.
  - destruct (ok n) eqn:Hok.
    + destruct Hin as [->|Hin]; [destruct Hnot; by left|].
      destruct (IH (S n)) as [He Hall]; [intros ?; apply Hnot; by right|done|].
      split; [by rewrite He|]. intros [|i] Hi; [by rewrite Nat.add_0_r|].
      cbn in Hi. replace (n + S i)%nat with (S n + i)%nat by lia. apply Hall. lia.
    + destruct Hin as [->|[]]. destruct Hnot. by left.
Qed.

Lemma script_destroy_last v :
  do_destroy v = true →
  ∃ body, script v = body ++ [destroy_cluster] ∧ ¬ In destroy_cluster body.
Proof.
  intros Hd. unfold script. rewrite Hd.
  exists ((if do_create v then [create_cluster] else []) ++
          (if do_upload v then [upload_scripts] else []) ++
          (if do_setup v then [setup_cluster] else []) ++
          (if f_resume v then [] else map start (benchmarks v)) ++
          flat_map fetch_results (benchmarks v)).
  split; [by rewrite <- !app_assoc|].
  rewrite !in_app_iff. intros [H|[H|[H|[H|H]]]].
  - destruct (do_create v); [|done]. by destruct H as [|[]].
  - destruct (do_upload v); [|done]. by destruct H as [|[]].
  - destruct (do_setup v); [|done]. by destruct H as [|[]].
  - destruct (f_resume v); [done|]. by apply In_start_map in H.
  - by apply In_fetches in H as (b & [|]).
Qed.

(** X18.  The cluster is destroyed only at the very end of a run in
    which every earlier command succeeded. *)
Theorem destroy_only_after_success (ok : nat → bool) (opts : list opt) (v0 v : vars) :
  getopts opts v0 = Some v →
  In destroy_cluster (run ok opts v0) →
  run ok opts v0 = script v ∧
  ∀ i, (S i < length (script v))%nat → ok i = true.
Proof.
  intros Hg. unfold run. rewrite Hg. intros Hin.
  assert (Hd : do_destroy v = true).
  { apply (In_prefix _ _ _ (errexit_prefix ok (script v) 0)) in Hin.
    by apply script_phase in Hin. }
  destruct (script_destroy_last v Hd) as (body & Hs & Hnot).
  rewrite Hs in *.
  destruct (errexit_reaches_last ok body destroy_cluster 0%nat Hnot Hin) as [He Hall].
  split; [done|]. intros i Hi. rewrite length_app in Hi. cbn in Hi.
  apply (Hall i). lia.
Qed.

(** ** Examples *)

Lemma getopts_benchmarks_witness :
  benchmarks (Vars [bench_cpu; bench_tpcc] true false false false false "4" "" "" "" "" "")
  = benchmarks (initial "" "" "" "") ++ flat_map requested resume_two.
Proof.
  exact (getopts_benchmarks resume_two (initial "" "" "" "")
           (Vars [bench_cpu; bench_tpcc] true false false false false "4" "" "" "" "" "")
           eq_refl).
Defined.

Lemma invalid_option_witness :
  run all_ok [opt_b "all"; opt_w "gpu"; opt_d] (initial "" "" "" "") = [].
Proof.
  destruct (invalid_option_runs_nothing all_ok [opt_b "all"; opt_w "gpu"; opt_d]
              (initial "" "" "" "")) as [_ Hnone].
  apply Hnone. apply Exists_cons. right. apply Exists_cons. left. reflexivity.
Defined.

Lemma phases_only_on_request_witness :
  ¬ In create_cluster (run all_ok [opt_b "upload"; opt_w "cpu"] (initial "" "" "" "")).
Proof.
  intros Hin.
  destruct (phases_only_on_request all_ok [opt_b "upload"; opt_w "cpu"]
              (initial "" "" "" "")) as (Hcreate & _).
  destruct (Hcreate Hin) as [H|[H|H]]; [discriminate H| |];
    destruct H as [H|[H|[]]]; discriminate H.
Defined.

Lemma starts_before_waits_witness :
  List.filter of_benchmark (run all_ok [opt_w "cpu"; opt_w "tpcc"] (initial "" "" "" ""))
  = [start bench_cpu; start bench_tpcc;
     wait_for bench_cpu; get_results bench_cpu;
     wait_for bench_tpcc; get_results bench_tpcc].
Proof.
  destruct (starts_before_waits all_ok [opt_w "cpu"; opt_w "tpcc"] (initial "" "" "" "")
              (Vars [bench_cpu; bench_tpcc] false false false false false "4" "" "" "" "" ""))
    as [_ Hall].
  - reflexivity.
  - intros [H|[H|[]]]; discriminate H.
  - reflexivity.
  - apply Hall. intros n. reflexivity.
Defined.

Lemma destroy_only_after_success_witness :
  run all_ok [opt_w "cpu"; opt_d] (initial "" "" "" "")
  = [start bench_cpu; wait_for bench_cpu; get_results bench_cpu; destroy_cluster].
Proof.
  destruct (destroy_only_after_success all_ok [opt_w "cpu"; opt_d] (initial "" "" "" "")
              (Vars [bench_cpu] false false false false true "4" "" "" "" "" ""))
    as [Hrun _].
  - reflexivity.
  - right. right. right. left. reflexivity.
  - exact Hrun.
Defined.

Example failed_wait_keeps_cluster :
  run (λ n, negb (n =? 1)%nat) [opt_w "cpu"; opt_d] (initial "" "" "" "")
  = [start bench_cpu; wait_for bench_cpu].
Proof. reflexivity. Qed.

End DriverMore.

Module TpccMore.
Import Tpcc TpccProofs.

Lemma starts_false_iff v pgurls f0 :
  starts v pgurls f0 = false ↔
  f_wait v = true ∨ (is_Some (pidfile f0) ∧ f_force v = false) ∨ pgurls = [].
Proof.
  unfold starts. rewrite !andb_false_iff, !negb_false_iff, andb_true_iff,
    !bool_decide_eq_true, negb_true_iff. tauto.
Qed.

(** X19.  In wait mode, when the guard finds a pid file and [-f] is not
    given, and when no pgurl is given, the script runs no command, sets
    no trap and leaves every file as it is, the pid file included. *)
Theorem refused_run_changes_nothing (w : world) (v : flags) (pgurls : list string) (f0 : fs) :
  f_wait v = true ∨ (is_Some (pidfile f0) ∧ f_force v = false) ∨ pgurls = [] →
  run w v pgurls f0 = St f0 false [] None.
Proof. intros H. by apply run_not_started, starts_false_iff. Qed.

(** X20.  In every world a run that starts executes the planned commands
    up to and including the first that exits non-zero or during which an
    interrupt reaches the process group while the [tee] runs, and its
    files other than the pid file are at the end those that the executed
    commands leave, one after the other. *)
Theorem run_outcome (w : world) (v : flags) (pgurls : list string) (f0 : fs) :
  starts v pgurls f0 = true →
  let st := run w v pgurls f0 in
  trace st = upto_fail (goes_on w) (planned w v) ∧
  rm_pidfile (files st) = rm_pidfile (fold_left (perform w) (trace st) f0).
Proof. intros Hs. by destruct (run_started w v pgurls f0 Hs) as (_ & ? & ? & _). Qed.

Lemma run_trace_planned w v pgurls f0 c :
  In c (trace (run w v pgurls f0)) →
  starts v pgurls f0 = true ∧ In c (upto_fail (goes_on w) (planned w v)).
Proof.
  destruct (starts v pgurls f0) eqn:Hs.
  - destruct (run_started w v pgurls f0 Hs) as (_ & -> & _). by split.
  - by rewrite (run_not_started w v pgurls f0 Hs).
Qed.

(** X22.  With [-s] neither the cluster settings nor the import is ever
    run. *)
Theorem skip_load_never_loads (w : world) (v : flags) (pgurls : list string) (f0 : fs) :
  f_skip_load v = true →
  ¬ In SqlSettings (trace (run w v pgurls f0)) ∧
  ¬ In ImportFixtures (trace (run w v pgurls f0)).
Proof.
  intros Hskip.
  assert (H : ∀ c, In c (trace (run w v pgurls f0)) → c ≠ SqlSettings ∧ c ≠ ImportFixtures).
  { intros c Hin. apply run_trace_planned in Hin as [_ Hin].
    apply In_upto_fail in Hin. unfold planned in Hin. rewrite Hskip in Hin.
    rewrite !in_app_iff, in_map_iff in Hin.
    destruct Hin as [Hin|[[]|[(a & <- & _)|[<-|[]]]]]; [|done..].
    cbn in Hin. by destruct Hin as [<-|[<-|[<-|[<-|[<-|[]]]]]]. }
  split; intros Hin; by destruct (H _ Hin).
Qed.

Lemma goes_on_ok w c : goes_on w c = true → ok w c = true.
Proof. unfold goes_on. by intros [? _]%andb_true_iff. Qed.

(** X21.  A workload runs only in a run that started and in which every
    command before the loop succeeded. *)
Theorem workload_needs_setup (w : world) (v : flags) (pgurls : list string) (f0 : fs)
    (a : string) :
  In (Workload a) (trace (run w v pgurls f0)) →
  reaches_ramp w v pgurls f0 = true.
Proof.
  intros Hin. apply run_trace_planned in Hin as [Hs Hin].
  unfold planned in Hin. rewrite app_assoc in Hin.
  apply In_upto_fail_later in Hin.
  2:{ rewrite in_app_iff. intros [H|H].
      - cbn in H. by destruct H as [|[|[|[|[|[]]]]]].
      - destruct (f_skip_load v); cbn in H; [done|]. by destruct H as [|[|[]]]. }
  rewrite forallb_app in Hin. apply andb_true_iff in Hin as [Hsetup Hload].
  cbn [forallb] in Hsetup. rewrite !andb_true_iff in Hsetup.
  destruct Hsetup as (H1 & H2 & H3 & H4 & H5 & _).
  apply goes_on_ok in H1, H2, H3, H4, H5.
  unfold starts in Hs. rewrite !andb_true_iff in Hs. destruct Hs as [[Hw Hg] Hp].
  unfold reaches_ramp. rewrite Hw, Hg, Hp, H1, H2, H3, H4, H5. cbn [andb].
  destruct (f_skip_load v); [done|]. cbn [forallb orb] in *.
  rewrite !andb_true_iff in Hload. destruct Hload as (H6 & H7 & _).
  apply goes_on_ok in H6, H7. by rewrite H6, H7.
Qed.

Lemma run_levels_prefix w v pgurls f0 :
  levels_run (trace (run w v pgurls f0)) `prefix_of` levels w v.
Proof.
  destruct (starts v pgurls f0) eqn:Hs.
  - destruct (run_started w v pgurls f0 Hs) as (_ & -> & _).
    etrans; [apply levels_run_prefix, upto_fail_prefix|].
    rewrite levels_run_planned. apply through_first_failure_prefix.
  - rewrite (run_not_started w v pgurls f0 Hs). apply prefix_nil.
Qed.

(** X23.  Whatever fails, the levels that run are an initial part of the
    levels [seq] gave: no level is skipped, repeated or run out of
    order. *)
Theorem levels_run_in_order (w : world) (v : flags) (pgurls : list string) (f0 : fs) :
  levels_run (trace (run w v pgurls f0)) `prefix_of` levels w v.
Proof. apply run_levels_prefix. Qed.

Lemma through_first_failure_ext w w' ls :
  (∀ a, last_line w a = last_line w' a) →
  through_first_failure w ls = through_first_failure w' ls.
Proof.
  intros H. induction ls as [|a ls IH]; cbn; [done|]. by rewrite H, IH.
Qed.

Lemma seq_ext w w' first inc last :
  (∀ a i l, seq_other w a i l = seq_other w' a i l) →
  seq w first inc last = seq w' first inc last.
Proof. intros H. unfold seq. rewrite H. by repeat case_match. Qed.

Lemma fs_eq f f' : rm_pidfile f = rm_pidfile f' → pidfile f = pidfile f' → f = f'.
Proof.
  intros (H1 & H2 & H3)%rm_pidfile_eq H4. destruct f, f'. cbn in *. congruence.
Qed.

Lemma perform_ext w w' f c :
  (∀ c, status w c = status w' c) →
  (∀ c f, partial w c f = partial w' c f) →
  rm_pidfile (perform w f c) = rm_pidfile (perform w' f c).
Proof.
  intros Hst Hpa. unfold perform, ok, wreck. rewrite Hst, Hpa.
  destruct (status w' c =? 0); [|done]. by destruct c.
Qed.

Lemma fold_perform_ext w w' cs : ∀ f f',
  (∀ c, status w c = status w' c) →
  (∀ c f, partial w c f = partial w' c f) →
  rm_pidfile f = rm_pidfile f' →
  rm_pidfile (fold_left (perform w) cs f) = rm_pidfile (fold_left (perform w') cs f').
Proof.
  induction cs as [|c cs IH]; intros f f' Hst Hpa Hf; cbn [fold_left]; [done|].
  apply IH; [done..|].
  rewrite (perform_respects w c f f' Hf). by apply perform_ext.
Qed.

(** X25.  Two worlds in which the commands exit, print and fail alike,
    in which no interrupt reaches the process group and [$HOME] has no
    blank, lead to the same commands run and the same files at the end,
    whenever interrupts reach the shell and whatever the pid: a trapped
    interrupt alone does not stop the ramp. *)
Theorem shell_interrupts_do_not_matter (w w' : world) (v : flags) (pgurls : list string)
    (f0 : fs) :
  spares_tee w → spares_tee w' →
  home_split w = false → home_split w' = false →
  (∀ c, status w c = status w' c) →
  (∀ c f, partial w c f = partial w' c f) →
  (∀ a, last_line w a = last_line w' a) →
  (∀ a i l, seq_other w a i l = seq_other w' a i l) →
  trace (run w v pgurls f0) = trace (run w' v pgurls f0) ∧
  files (run w v pgurls f0) = files (run w' v pgurls f0).
Proof.
  intros Hsp Hsp' Hh Hh' Hst Hpa Hline Hseq.
  destruct (starts v pgurls f0) eqn:Hs.
  - destruct (run_started w v pgurls f0 Hs) as (_ & Htr & Hfs & Hpid).
    destruct (run_started w' v pgurls f0 Hs) as (_ & Htr' & Hfs' & Hpid').
    assert (Hp : planned w v = planned w' v).
    { unfold planned, levels. rewrite (seq_ext w w') by done.
      by rewrite (through_first_failure_ext w w'). }
    assert (Hgo : ∀ c, goes_on w c = goes_on w' c).
    { intros c. unfold goes_on, ok. rewrite Hst.
      by rewrite !spares_tee_survives. }
    assert (Ht : trace (run w v pgurls f0) = trace (run w' v pgurls f0)).
    { by rewrite Htr, Htr', Hp, (upto_fail_ext _ _ _ Hgo). }
    split; [done|]. apply fs_eq.
    + rewrite Hfs, Hfs', Ht. by apply fold_perform_ext.
    + rewrite Hpid, Hpid'; [done|by apply spares_tee_forall|done
                            |by apply spares_tee_forall|done].
  - by rewrite !run_not_started.
Qed.

(** ** The results directory *)

Lemma write_report_elem a b f :
  a ∈ reports (write_report b f) ↔ a ∈ reports f ∨ a = b.
Proof.
  unfold write_report. cbn [reports]. case_bool_decide as Hb.
  - split; [by left|]. by intros [?| ->].
  - rewrite elem_of_app, list_elem_of_singleton. done.
Qed.

Lemma wreck_reports w c f a :
  a ∈ reports (wreck w c f) → a ∈ reports f ∨ c = Workload a.
Proof.
  unfold wreck. destruct c; cbn [reports]; try (by left).
  - intros H. apply list_elem_of_In, filter_In in H as [H _]. left.
    by apply list_elem_of_In.
  - case_bool_decide; [|by left].
    intros [?| ->]%write_report_elem; [by left|by right].
Qed.

Lemma effect_reports w c f a :
  a ∈ reports (effect w c f) → a ∈ reports f ∨ c = Workload a.
Proof.
  destruct c; cbn [effect reports write_pid rm_logdir mkdir_logdir touch_success id];
    try (by left).
  - by intros ?%elem_of_nil.
  - intros [?| ->]%write_report_elem; [by left|by right].
Qed.

Lemma perform_new_report w c f a :
  a ∈ reports (perform w f c) → a ∈ reports f ∨ c = Workload a.
Proof.
  unfold perform. destruct (ok w c); [apply effect_reports|apply wreck_reports].
Qed.

Lemma perform_keeps_report w c f a :
  c ≠ RmLogdir → a ∈ reports f → a ∈ reports (perform w f c).
Proof.
  intros Hc Ha. unfold perform, wreck.
  destruct (ok w c), c; cbn [effect reports write_pid rm_logdir mkdir_logdir
                             touch_success id]; try done.
  - apply write_report_elem. by left.
  - case_bool_decide; [|done]. apply write_report_elem. by left.
Qed.

Lemma perform_workload_report w f a :
  ok w (Workload a) = true → a ∈ reports (perform w f (Workload a)).
Proof.
  intros Hok. unfold perform. rewrite Hok. cbn [effect].
  apply write_report_elem. by right.
Qed.

Lemma fold_perform_reports_from w cs : ∀ f a,
  a ∈ reports (fold_left (perform w) cs f) → a ∈ reports f ∨ a ∈ levels_run cs.
Proof.
  induction cs as [|c cs IH]; intros f a Ha; cbn [fold_left] in Ha; [by left|].
  apply IH in Ha as [Ha|Ha].
  - apply perform_new_report in Ha as [Ha| ->]; [by left|].
    right. change (a ∈ levels_run ([Workload a] ++ cs)). rewrite levels_run_app.
    apply elem_of_app. left. by apply list_elem_of_singleton.
  - right. change (a ∈ levels_run ([c] ++ cs)). rewrite levels_run_app.
    apply elem_of_app. by right.
Qed.

Lemma fold_perform_keeps_report w cs : ∀ f a,
  ¬ In RmLogdir cs → a ∈ reports f → a ∈ reports (fold_left (perform w) cs f).
Proof.
  induction cs as [|c cs IH]; intros f a Hnot Ha; cbn [fold_left]; [done|].
  apply IH; [intros ?; apply Hnot; by right|].
  apply perform_keeps_report; [|done]. intros ->. apply Hnot. by left.
Qed.

Lemma levels_run_elem a cs : a ∈ levels_run cs ↔ In (Workload a) cs.
Proof.
  unfold levels_run. rewrite list_elem_of_omap. split.
  - intros (c & Hc & Hm). destruct c; try done. injection Hm as ->.
    by apply list_elem_of_In.
  - intros H. exists (Workload a). split; [by apply list_elem_of_In|done].
Qed.

Lemma fold_perform_report_of w cs : ∀ f a,
  ¬ In RmLogdir cs → In (Workload a) cs → ok w (Workload a) = true →
  a ∈ reports (fold_left (perform w) cs f).
Proof.
  induction cs as [|c cs IH]; intros f a Hnot Hin Hok; [done|]. cbn [fold_left].
  assert (Hnot' : ¬ In RmLogdir cs) by (intros ?; apply Hnot; by right).
  destruct Hin as [->|Hin].
  - apply fold_perform_keeps_report; [done|]. by apply perform_workload_report.
  - by apply IH.
Qed.

Lemma perform_success_from w c f :
  success (perform w f c) = true → success f = true ∨ c = TouchSuccess.
Proof.
  unfold perform, wreck.
  destruct (ok w c), c; cbn [effect success write_pid rm_logdir mkdir_logdir
                             write_report touch_success id];
    try (by left); try (by right).
  - intros [? _]%andb_true_iff. by left.
  - case_bool_decide; by left.
Qed.

Lemma fold_perform_success_from w cs : ∀ f,
  success (fold_left (perform w) cs f) = true → success f = true ∨ In TouchSuccess cs.
Proof.
  induction cs as [|c cs IH]; intros f H; cbn [fold_left] in H; [by left|].
  apply IH in H as [H|H]; [|right; by right].
  apply perform_success_from in H as [H| ->]; [by left|right; by left].
Qed.

Lemma planned_body w v :
  planned w v = WritePid :: RmLogdir :: body w v ++ [TouchSuccess].
Proof. unfold planned, body. by rewrite <- !app_assoc. Qed.

Lemma body_plain w v c :
  In c (body w v ++ [TouchSuccess]) → c ≠ RmLogdir ∧ c ≠ WritePid.
Proof.
  unfold body. rewrite !in_app_iff, in_map_iff.
  intros [[H|[H|(a & <- & _)]]|[<-|[]]]; [| |done..].
  - cbn in H. by destruct H as [<-|[<-|[<-|[]]]].
  - destruct (f_skip_load v); cbn in H; [done|]. by destruct H as [<-|[<-|[]]].
Qed.

Lemma goes_on_early w c :
  c = WritePid ∨ c = RmLogdir ∨ c = MkdirLogdir → goes_on w c = ok w c.
Proof. intros H. unfold goes_on. by rewrite early_survives, andb_true_r. Qed.

(** X26.  In every world, in a run that starts: once the pid file is
    written and the results directory wiped, every report at the end is
    that of a level that ran, every level whose workload exited zero has
    its report, and the success marker is there only if [touch] was
    reached; if the run ends before the wipe is done, no level runs and
    no report and no success marker is there that was not there
    before. *)
Theorem results_directory (w : world) (v : flags) (pgurls : list string) (f0 : fs) :
  starts v pgurls f0 = true →
  let st := run w v pgurls f0 in
  if ok w WritePid && ok w RmLogdir then
    (∀ a, a ∈ reports (files st) → a ∈ levels_run (trace st)) ∧
    (∀ a, a ∈ levels_run (trace st) → ok w (Workload a) = true →
          a ∈ reports (files st)) ∧
    (success (files st) = true → In TouchSuccess (trace st))
  else
    levels_run (trace st) = [] ∧
    (∀ a, a ∈ reports (files st) → a ∈ reports f0) ∧
    (success (files st) = true → success f0 = true).
Proof.
  intros Hs st. subst st.
  destruct (run_started w v pgurls f0 Hs) as (_ & Htr & Hfs & _).
  apply rm_pidfile_eq in Hfs as (_ & Hsu & Hre). rewrite Hsu, Hre, Htr.
  clear Hsu Hre Htr. rewrite planned_body. cbn [upto_fail].
  rewrite (goes_on_early w WritePid), (goes_on_early w RmLogdir) by tauto.
  destruct (ok w WritePid) eqn:H1.
  2:{ cbn [andb fold_left]. unfold perform. rewrite H1. cbn. done. }
  destruct (ok w RmLogdir) eqn:H2.
  2:{ cbn [andb fold_left]. unfold perform. rewrite H1, H2. cbn.
      split; [done|]. split.
      - intros a H. apply list_elem_of_In, filter_In in H as [H _].
        by apply list_elem_of_In.
      - by intros [? _]%andb_true_iff. }
  cbn [andb fold_left].
  set (t := upto_fail (goes_on w) (body w v ++ [TouchSuccess])).
  assert (Hf1 : reports (perform w (perform w f0 WritePid) RmLogdir) = [] ∧
                success (perform w (perform w f0 WritePid) RmLogdir) = false).
  { unfold perform. by rewrite H1, H2. }
  destruct Hf1 as [Hrep Hsuc].
  generalize dependent (perform w (perform w f0 WritePid) RmLogdir). intros f1 Hrep Hsuc.
  assert (Hnot : ¬ In RmLogdir t).
  { intros H. apply In_upto_fail in H. by destruct (body_plain _ _ _ H). }
  change (levels_run (WritePid :: RmLogdir :: t)) with (levels_run t).
  split; [|split].
  - intros a Ha. apply fold_perform_reports_from in Ha as [Ha|Ha]; [|done].
    rewrite Hrep in Ha. by apply elem_of_nil in Ha.
  - intros a Ha Hok. apply levels_run_elem in Ha. by apply fold_perform_report_of.
  - intros H. apply fold_perform_success_from in H as [H|H]; [congruence|].
    right. by right.
Qed.

(** ** The levels *)

Lemma gnu_seq_bounds first inc last :
  (0 < inc)%N →
  Forall (λ x, ∃ n, x = print n ∧ (first ≤ n ≤ last)%N) (gnu_seq first inc last) ∧
  ((last < first)%N → gnu_seq first inc last = []).
Proof.
  intros Hinc. unfold gnu_seq. rewrite (proj2 (N.eqb_neq inc 0)) by lia. cbn [orb].
  destruct (N.ltb_spec last first) as [Hlt|Hle]; [by split|].
  split; [|lia].
  apply Forall_forall. intros x Hx. apply list_elem_of_In, in_map_iff in Hx.
  destruct Hx as (k & <- & Hk). apply in_seq in Hk. eexists. split; [done|].
  assert (Hq : (N.of_nat k ≤ (last - first) / inc)%N) by lia.
  assert (Hm : (inc * ((last - first) / inc) ≤ last - first)%N)
    by (apply N.Div0.mul_div_le).
  nia.
Qed.

(** X24.  When the start level, the warehouse count and the increment
    that [seq] is given are plain numerals below 2^63 and the increment
    is positive, every level that runs is a number between the start
    level and the warehouse count, and when the start level is above the
    warehouse count no level runs. *)
Theorem levels_run_within_bounds (w : world) (v : flags) (pgurls : list string) (f0 : fs)
    (a i l : N) :
  numeral (f_active v) = Some a →
  numeral (if String.eqb (f_inc v) "0" then f_warehouses v else f_inc v) = Some i →
  numeral (f_warehouses v) = Some l →
  (a < 2 ^ 63)%N → (0 < i < 2 ^ 63)%N → (l < 2 ^ 63)%N →
  Forall (λ x, ∃ n, x = print n ∧ (a ≤ n ≤ l)%N)
         (levels_run (trace (run w v pgurls f0))) ∧
  ((l < a)%N → levels_run (trace (run w v pgurls f0)) = []).
Proof.
  intros Ha Hi Hl Ba Bi Bl. pose proof (run_levels_prefix w v pgurls f0) as Hp.
  destruct (gnu_seq_bounds a i l) as (Hall & Hnone); [lia|].
  assert (Hlv : levels w v = gnu_seq a i l).
  { unfold levels. apply seq_numerals; (done || lia). }
  rewrite Hlv in Hp. split.
  - destruct Hp as [k Hk]. rewrite Hk in Hall. by apply Forall_app in Hall as [? _].
  - intros Hlt. rewrite (Hnone Hlt) in Hp. by apply prefix_nil_inv in Hp.
Qed.

(** X29.  An increment that is a plain numeral of value zero but not the
    text [0], such as [00], is not replaced by the warehouse count: [seq]
    rejects it, the loop is given no level, and a run that reaches the
    loop and that no interrupt to the process group kills runs no level
    and writes the success marker when [touch] exits zero. *)
Theorem zero_spelled_otherwise_runs_nothing (w : world) (v : flags)
    (pgurls : list string) (f0 : fs) (a l : N) :
  reaches_ramp w v pgurls f0 = true →
  spares_tee w →
  numeral (f_inc v) = Some 0%N →
  f_inc v ≠ "0" →
  numeral (f_active v) = Some a →
  numeral (f_warehouses v) = Some l →
  (a < 2 ^ 63)%N → (l < 2 ^ 63)%N →
  let st := run w v pgurls f0 in
  levels w v = [] ∧ levels_run (trace st) = [] ∧
  ramp_end st = Some None ∧
  (ok w TouchSuccess = true → success (files st) = true).
Proof.
  intros Hr Hsp Hi Hz Ha Hl Ba Bl st.
  destruct (run_summary w v pgurls f0 Hr Hsp) as (Hrun & Hs & _).
  fold st in Hrun, Hs.
  assert (Hlv : levels w v = []).
  { unfold levels. rewrite (proj2 (String.eqb_neq _ _) Hz).
    rewrite (seq_numerals w _ _ _ a 0%N l) by (done || lia).
    apply gnu_seq_zero. }
  assert (He : ramp_end st = Some None).
  { subst st. unfold run.
    destruct (main_reaches_ramp _ _ _ _ Hr Hsp) as (s & (Hts & _) & ->).
    unfold mbind, sh_bind. rewrite Hlv. cbn [ramp ended].
    set (s2 := St (files s) (trapped s) (trace s) (Some None)).
    destruct (sh_spec w TouchSuccess touch_success s2 Hts) as (_ & _ & He & _ & Hfl).
    destruct (sh w TouchSuccess touch_success s2) as [[] s3|code s3|sig s3];
      cbn [final state_of] in *.
    - destruct (at_exit_facts w s3) as (_ & _ & _ & _ & -> & _). by rewrite He.
    - destruct (at_exit_facts w s3) as (_ & _ & _ & _ & -> & _). by rewrite He.
    - by rewrite spares_tee_kills in Hfl. }
  split; [done|]. split; [by rewrite Hrun, Hlv|]. split; [done|].
  intros Hok. apply Hs; [by rewrite He|done].
Qed.

(** X27.  In a run that reaches the loop, in which no interrupt reaches
    the process group and no workload exits non-zero, the levels that run
    are the levels in order up to and including the first whose last
    report line fails the test of awk: nothing above a failing level
    runs, and all levels run when all pass.  With levels 2500, 2750, 3000
    and last lines with the numbers 86 and 9000, then 84 and 9500 in
    columns 3 and 7, the levels 2500 and 2750 run and 3000 does not. *)
Theorem ramp_follows_awk_rule (w : world) (v : flags) (pgurls : list string) (f0 : fs) :
  reaches_ramp w v pgurls f0 = true →
  spares_tee w →
  (∀ a, ok w (Workload a) = true) →
  let ran := levels_run (trace (run w v pgurls f0)) in
  ran = through_first_failure w (levels w v) ∧
  (∀ pre a post,
      levels w v = pre ++ a :: post →
      Forall (λ b, pass (last_line w b) = true) pre →
      pass (last_line w a) = false →
      ran = pre ++ [a]) ∧
  (Forall (λ b, pass (last_line w b) = true) (levels w v) → ran = levels w v) ∧
  (f_active v = "2500" → f_inc v = "250" → f_warehouses v = "3000" →
   field 3 (last_line w "2500") = Number 86 1 →
   field 7 (last_line w "2500") = Number 9000 1 →
   field 3 (last_line w "2750") = Number 84 1 →
   field 7 (last_line w "2750") = Number 9500 1 →
   levels w v = ["2500"; "2750"; "3000"] ∧ ran = ["2500"; "2750"]).
Proof.
  intros Hr Hsp Hok ran.
  assert (Hran : ran = through_first_failure w (levels w v))
    by (by apply reached_levels_run).
  split; [done|]. rewrite Hran. split; [|split].
  - intros pre a post -> Hpre Ha. by apply through_first_failure_stop.
  - apply through_first_failure_all.
  - intros HA HI HW H1 H2 H3 H4. unfold levels. rewrite HA, HI, HW.
    split; [done|].
    change (seq w "2500" (if String.eqb "250" "0" then "3000" else "250") "3000")
      with ["2500"; "2750"; "3000"].
    cbn [through_first_failure]. unfold pass. rewrite H1, H2, H3, H4. done.
Qed.

Lemma quiet_survives w cs :
  (∀ c, tee_at w c = true → sigint w c ≠ ToGroup) → forallb (survives w) cs = true.
Proof.
  intros H. induction cs as [|c cs IH]; cbn [forallb]; [done|]. rewrite IH, andb_true_r.
  unfold survives. specialize (H c).
  destruct (tee_at w c); [|by rewrite andb_false_r].
  by destruct (sigint w c); [..|destruct H].
Qed.

(** X28.  A run that starts writes the pid file first, and when [$HOME]
    has no blank and no interrupt reaches the process group while the
    [tee] runs, the pid file is absent when the process is gone: after a
    run in which every command exited zero, after the failure of any
    command, and after interrupts that reach the shell alone or arrive
    before the redirection of line 71. *)
Theorem pidfile_removed_unless_killed (w : world) (v : flags) (pgurls : list string)
    (f0 : fs) :
  starts v pgurls f0 = true →
  home_split w = false →
  (∀ c, tee_at w c = true → sigint w c ≠ ToGroup) →
  head (trace (run w v pgurls f0)) = Some WritePid ∧
  pidfile (files (run w v pgurls f0)) = None.
Proof.
  intros Hs Hh Hq. destruct (run_started w v pgurls f0 Hs) as (_ & Htr & _ & Hpid).
  split.
  - rewrite Htr. by rewrite planned_body.
  - apply Hpid; [by apply quiet_survives|done].
Qed.

(** ** Examples *)

Lemma refused_run_witness :
  run one_pass defaults ["postgres://n1:26257"] (FS (Some 7) true true ["2500"])
  = St (FS (Some 7) true true ["2500"]) false [] None.
Proof.
  apply (refused_run_changes_nothing one_pass defaults ["postgres://n1:26257"]
           (FS (Some 7) true true ["2500"])).
  right. left. split; [by eexists|reflexivity].
Defined.

Lemma run_outcome_witness :
  trace (run ctrl_c three_levels ["postgres://n1:26257"] no_files)
  = upto_fail (goes_on ctrl_c) (planned ctrl_c three_levels).
Proof.
  destruct (run_outcome ctrl_c three_levels ["postgres://n1:26257"] no_files eq_refl)
    as [Htrace _].
  exact Htrace.
Defined.

Lemma workload_needs_setup_witness :
  reaches_ramp one_pass three_levels ["postgres://n1:26257"] no_files = true.
Proof.
  apply (workload_needs_setup one_pass three_levels ["postgres://n1:26257"] no_files
           "2500").
  vm_compute. do 7 right. left. reflexivity.
Defined.

Lemma skip_load_witness :
  ¬ In ImportFixtures (trace (run one_pass skipping ["postgres://n1:26257"] no_files)).
Proof.
  destruct (skip_load_never_loads one_pass skipping ["postgres://n1:26257"] no_files eq_refl)
    as [_ Himport].
  exact Himport.
Defined.

Lemma levels_run_within_bounds_witness :
  Forall (λ x, ∃ n, x = print n ∧ (2500 ≤ n ≤ 3000)%N)
    (levels_run (trace (run one_pass three_levels ["postgres://n1:26257"] no_files))).
Proof.
  destruct (levels_run_within_bounds one_pass three_levels ["postgres://n1:26257"] no_files
              2500 250 3000 eq_refl eq_refl eq_refl) as [Hall _]; [lia..|].
  exact Hall.
Defined.

Lemma zero_spelled_otherwise_witness :
  levels_run (trace (run one_pass (Flags false false "2500" "3500" false "30m" "00")
                       ["postgres://n1:26257"] no_files)) = [].
Proof.
  pose proof (zero_spelled_otherwise_runs_nothing one_pass
                (Flags false false "2500" "3500" false "30m" "00")
                ["postgres://n1:26257"] no_files 2500 3500 eq_refl (calm_spares_tee _)
                eq_refl) as H.
  destruct H as (_ & Hrun & _); [discriminate|reflexivity|reflexivity|lia|lia|].
  exact Hrun.
Defined.

Lemma noisy_spares_tee : spares_tee noisy.
Proof. intros c. discriminate. Qed.

Lemma shell_interrupts_witness :
  files (run one_pass three_levels ["postgres://n1:26257"] no_files)
  = files (run noisy three_levels ["postgres://n1:26257"] no_files).
Proof.
  destruct (shell_interrupts_do_not_matter one_pass noisy three_levels
              ["postgres://n1:26257"] no_files (calm_spares_tee _) noisy_spares_tee
              eq_refl eq_refl) as [_ Hfiles].
  - intros c. reflexivity.
  - intros c f. reflexivity.
  - intros a. reflexivity.
  - intros a i l. reflexivity.
  - exact Hfiles.
Defined.

Lemma results_directory_witness :
  levels_run (trace (run half_wiped three_levels ["postgres://n1:26257"]
                       (FS None true true ["2500"]))) = [].
Proof.
  pose proof (results_directory half_wiped three_levels ["postgres://n1:26257"]
                (FS None true true ["2500"]) eq_refl) as H.
  cbv zeta in H.
  change (ok half_wiped WritePid && ok half_wiped RmLogdir) with false in H.
  cbv iota in H. destruct H as (Hnone & _). exact Hnone.
Defined.

Lemma ramp_follows_awk_rule_witness :
  levels_run (trace (run one_pass three_levels ["postgres://n1:26257"] no_files))
  = ["2500"; "2750"].
Proof.
  pose proof (ramp_follows_awk_rule one_pass three_levels ["postgres://n1:26257"]
                no_files eq_refl (calm_spares_tee _) (λ _, eq_refl)) as (_ & _ & _ & H).
  apply H; reflexivity.
Defined.

Lemma pidfile_removed_witness :
  pidfile (files (run interrupted forced ["postgres://n1:26257"] (FS (Some 7) true true [])))
  = None.
Proof.
  destruct (pidfile_removed_unless_killed interrupted forced ["postgres://n1:26257"]
              (FS (Some 7) true true []) eq_refl eq_refl) as [_ Hpid].
  - intros c _. destruct c; discriminate.
  - exact Hpid.
Defined.

Example stale_success_survives :
  let w := World 1 (λ c, match c with WritePid => 1 | _ => 0 end) (λ _ f, f)
             (λ _, NoSignal) (λ _, []) (λ _ _ _, []) false false in
  run w defaults ["postgres://n1:26257"] (FS None true true ["2500"])
  = St (FS None true true ["2500"]) true [WritePid] None.
Proof. vm_compute. reflexivity. Qed.

Example failed_wipe_has_emptied :
  run half_wiped defaults ["postgres://n1:26257"] (FS None true true ["2500"])
  = St (FS None true false []) true [WritePid; RmLogdir] None.
Proof. vm_compute. reflexivity. Qed.

Example start_above_maximum :
  run one_pass (Flags false false "4000" "3500" true "30m" "250") ["postgres://n1:26257"]
      no_files
  = St (FS None true true []) true
       [WritePid; RmLogdir; MkdirLogdir; RedirectLog; CdHome; TouchSuccess]
       (Some None).
Proof. vm_compute. reflexivity. Qed.

End TpccMore.
